(** * Roku media player and remote: state derivation and command dispatch

    A shallow embedding of [custom_components/roku]: the properties of
    [RokuMediaPlayer] that derive the entity's state from the coordinator's
    latest snapshot, the command handlers of [RokuMediaPlayer] and
    [RokuRemote], and the decorator [roku_exception_handler].

    Python [str] values are modelled as [string], read as the UTF-8 bytes of
    the text: comparison, [split] on a comma and [quote] act on those bytes
    exactly as Python acts on the text, and [strip] removes the bytes of the
    white space characters of Unicode that [str.strip] removes. *)

From Stdlib Require Import ZArith List String Ascii Bool Sorted Permutation Lia.
From Stdlib Require Import OrderedTypeEx.
Import ListNotations.

Open Scope string_scope.
Open Scope list_scope.

(** ** The snapshot held by the coordinator *)

Module Data.

(** Modelled from the spec: the data classes of the snapshot come from the
    vendor library and are not among the repository's sources; the fields
    are those of the spec's data model.  A name, which the code tests for
    truth, is a string, false when empty. *)
Record Application := mkApplication {
  name : string;
  app_id : string;
  screensaver : bool
}.

(** Modelled from the spec: the active media.  [duration] and [position] are
    Python integers (seconds); [at_] is the time the position was read, as
    seconds since the epoch. *)
Record MediaState := mkMediaState {
  paused : bool;
  live : bool;
  duration : Z;
  position : Z;
  at_ : Z
}.

(** Modelled from the spec: the active TV channel; the name and the program
    title are the fields the code tests with [is not None]. *)
Record Channel := mkChannel {
  number : string;
  channel_name : option string;
  program_title : option string
}.

(** Modelled from the spec: the power state. *)
Record State := mkState {
  standby : bool
}.

(** Modelled from the spec: the device info. *)
Record Info := mkInfo {
  info_name : string;
  serial_number : string;
  device_type : string
}.

(** Modelled from the spec: the device snapshot, [coordinator.data]. *)
Record Device := mkDevice {
  info : Info;
  state : State;
  app : option Application;
  apps : list Application;
  media : option MediaState;
  channel : option Channel
}.

End Data.

(** ** Constants of the host platform *)

Definition STATE_HOME := "home".
Definition STATE_IDLE := "idle".
Definition STATE_ON := "on".
Definition STATE_PAUSED := "paused".
Definition STATE_PLAYING := "playing".
Definition STATE_STANDBY := "standby".

Definition MEDIA_TYPE_APP := "app".
Definition MEDIA_TYPE_CHANNEL := "channel".
Definition HLS_PROVIDER := "hls".

(** [FORMAT_CONTENT_TYPE[HLS_PROVIDER]]: the table has the one entry. *)
Definition FORMAT_CONTENT_TYPE (provider : string) : string :=
  "application/vnd.apple.mpegurl".

(** ** Python built-ins used by the properties *)

(** Truth value of a [str]. *)
Definition truthy (s : string) : bool := negb (s =? "").

(** [x in (a, b)] on strings. *)
Definition in2 (x a b : string) : bool := (x =? a) || (x =? b).

(** [sorted] on a list of strings, by the default comparison of [str]:
    lexicographic on the characters' codes. *)
Fixpoint insert_sorted (x : string) (l : list string) : list string :=
  match l with
  | [] => [x]
  | y :: l' => if (x <=? y)%string then x :: l else y :: insert_sorted x l'
  end.

Definition sorted (l : list string) : list string :=
  fold_right insert_sorted [] l.


(** ** Python string functions used by the command handlers *)

Definition comma : ascii := ","%char.

(** [s.split(",")]: the pieces between the commas, one more than there are
    commas. *)
Fixpoint split_comma (s : string) : list string :=
  match s with
  | EmptyString => [""]
  | String c s' =>
    if Ascii.eqb c comma then "" :: split_comma s'
    else match split_comma s' with
         | p :: ps => String c p :: ps
         | [] => [String c ""]
         end
  end.

(** White space as [str.strip] sees it: the code points for which
    [str.isspace] holds of a character.  They are U+0009 to U+000D, U+001C
    to U+0020, U+0085, U+00A0, U+1680, U+2000 to U+200A, U+2028, U+2029,
    U+202F, U+205F and U+3000. *)
Definition white_space : list N :=
  [9; 10; 11; 12; 13; 28; 29; 30; 31; 32; 133; 160; 5760;
   8192; 8193; 8194; 8195; 8196; 8197; 8198; 8199; 8200; 8201; 8202;
   8232; 8233; 8239; 8287; 12288]%N.

(** The UTF-8 bytes of a code point below U+10000. *)
Definition utf8 (cp : N) : list ascii :=
  if (cp <? 128)%N then [ascii_of_N cp]
  else if (cp <? 2048)%N then
    [ascii_of_N (192 + cp / 64); ascii_of_N (128 + cp mod 64)]
  else
    [ascii_of_N (224 + cp / 4096);
     ascii_of_N (128 + (cp / 64) mod 64);
     ascii_of_N (128 + cp mod 64)].

(** The byte sequences that are a white space character. *)
Definition space_encodings : list (list ascii) := map utf8 white_space.

(** The same, read from the end of a text. *)
Definition space_encodings_reversed : list (list ascii) :=
  map (@rev ascii) space_encodings.

(** [p] is the beginning of [l]. *)
Fixpoint starts_with (p l : list ascii) : bool :=
  match p, l with
  | [], _ => true
  | a :: p', b :: l' => Ascii.eqb a b && starts_with p' l'
  | _ :: _, [] => false
  end.

(** The text without the white space character it begins with, if it
    begins with one. *)
Definition drop_space (encodings : list (list ascii)) (l : list ascii)
  : option (list ascii) :=
  match find (fun e => starts_with e l) encodings with
  | Some e => Some (skipn (List.length e) l)
  | None => None
  end.

(** Drops white space characters from the beginning, at most [fuel] of
    them. *)
Fixpoint drop_spaces (encodings : list (list ascii)) (fuel : nat)
  (l : list ascii) : list ascii :=
  match fuel with
  | O => l
  | S fuel' =>
    match drop_space encodings l with
    | Some l' => drop_spaces encodings fuel' l'
    | None => l
    end
  end.

(** [s.lstrip()]: a text has no more white space characters than bytes. *)
Definition lstrip (s : string) : string :=
  let l := list_ascii_of_string s in
  string_of_list_ascii (drop_spaces space_encodings (List.length l) l).

(** [s.rstrip()]: in UTF-8 a character ends a text exactly when its bytes
    do, so the white space is dropped from the reversed bytes. *)
Definition rstrip (s : string) : string :=
  let l := rev (list_ascii_of_string s) in
  string_of_list_ascii
    (rev (drop_spaces space_encodings_reversed (List.length l) l)).

(** [s.strip()] *)
Definition strip (s : string) : string := rstrip (lstrip s).

(** [urllib.parse.quote(s, safe="")]: every byte but the unreserved ones
    (letters, digits and [_.-~]) becomes a percent sign and two upper case
    hexadecimal digits. *)
Definition unreserved (c : ascii) : bool :=
  let n := nat_of_ascii c in
  ((65 <=? n) && (n <=? 90) || (97 <=? n) && (n <=? 122)
   || (48 <=? n) && (n <=? 57)
   || (n =? 95) || (n =? 46) || (n =? 45) || (n =? 126))%nat.

Definition hex_digit (n : nat) : ascii :=
  if (n <? 10)%nat then ascii_of_nat (48 + n) else ascii_of_nat (55 + n).

Definition quote_byte (c : ascii) : string :=
  if unreserved c then String c ""
  else let n := nat_of_ascii c in
       String "%"%char
         (String (hex_digit (n / 16)) (String (hex_digit (n mod 16)) "")).

Fixpoint quote (s : string) : string :=
  match s with
  | EmptyString => ""
  | String c s' => (quote_byte c ++ quote s')%string
  end.

(** ** Effects: vendor calls, refresh requests and the log *)

(** The two vendor exceptions the decorator names, [RokuConnectionError]
    being the more specific one, and any other exception. *)
Inductive Exn :=
| RokuConnectionError (msg : string)
| RokuError (msg : string)
| OtherException (msg : string).

(** What a handler does to the outside, in the order it does it. *)
Inductive Event :=
| Remote (key : string)
| Launch (app_id : string) (params : option (list (string * string)))
| Tune (channel : string)
| Search (keyword : string)
| RequestRefresh
| LogError (msg : string) (args : list string)
| LogInfo (msg : string) (args : list string).

(** The entity's surroundings: the events so far, the number of vendor calls
    issued, what the vendor client answers to the n-th call ([None]: it
    succeeds), and whether the entity is available. *)
Record World := mkWorld {
  trace : list Event;
  calls : nat;
  vendor : nat -> option Exn;
  available : bool
}.

Inductive Result (A : Type) :=
| Ok (a : A)
| Raise (e : Exn).

Arguments Ok {A} a.
Arguments Raise {A} e.

Definition M (A : Type) : Type := World -> Result A * World.

Definition ret {A : Type} (a : A) : M A := fun w => (Ok a, w).

Definition bind {A B : Type} (m : M A) (k : A -> M B) : M B :=
  fun w =>
    match m w with
    | (Ok a, w') => k a w'
    | (Raise e, w') => (Raise e, w')
    end.

Declare Scope roku_scope.
Delimit Scope roku_scope with roku.
Notation "m ;; k" := (bind m (fun _ => k))
  (at level 61, right associativity) : roku_scope.
Open Scope roku_scope.

Definition emit (ev : Event) (w : World) : World :=
  mkWorld (trace w ++ [ev]) (calls w) (vendor w) (available w).

(** An awaited call of the vendor client: the call is issued, then it returns
    or raises. *)
Definition vendor_call (ev : Event) : M unit :=
  fun w =>
    let w' := mkWorld (trace w ++ [ev]) (S (calls w)) (vendor w) (available w) in
    match vendor w (calls w) with
    | None => (Ok tt, w')
    | Some e => (Raise e, w')
    end.

Definition remote (key : string) : M unit := vendor_call (Remote key).

Definition launch (app_id : string) (params : option (list (string * string)))
  : M unit := vendor_call (Launch app_id params).

Definition tune (channel : string) : M unit := vendor_call (Tune channel).

Definition roku_search (keyword : string) : M unit :=
  vendor_call (Search keyword).

Definition async_request_refresh : M unit :=
  fun w => (Ok tt, emit RequestRefresh w).

Definition log_error (msg : string) (args : list string) : M unit :=
  fun w => (Ok tt, emit (LogError msg args) w).

Definition log_info (msg : string) (args : list string) : M unit :=
  fun w => (Ok tt, emit (LogInfo msg args) w).

(** [for x in l: body(x)] *)
Fixpoint for_each {A : Type} (l : list A) (body : A -> M unit) : M unit :=
  match l with
  | [] => ret tt
  | x :: l' => body x ;; for_each l' body
  end.

(** [range(n)] *)
Definition range (n : Z) : list Z := map Z.of_nat (seq 0 (Z.to_nat n)).

(** [roku_exception_handler], applied to the call [func(self, *args)]. *)
Definition roku_exception_handler (func : M unit) : M unit :=
  fun w =>
    match func w with
    | (Ok _, w') => (Ok tt, w')
    | (Raise (RokuConnectionError msg), w') =>
      if available w'
      then log_error "Error communicating with API: %s" [msg] w'
      else (Ok tt, w')
    | (Raise (RokuError msg), w') =>
      if available w'
      then log_error "Invalid response from API: %s" [msg] w'
      else (Ok tt, w')
    | (Raise e, w') => (Raise e, w')
    end.

(** ** [media_player.py]: [RokuMediaPlayer] *)

Module MediaPlayer.
Import Data.

Definition _media_playback_trackable (d : Device) : bool :=
  match media d with
  | None => false
  | Some m => if live m then false else (0 <? duration m)%Z
  end.

Definition state (d : Device) : option string :=
  if standby (Data.state d) then Some STATE_STANDBY
  else match app d with
       | None => None
       | Some a =>
         if (name a =? "Power Saver") || screensaver a then Some STATE_IDLE
         else if name a =? "Roku" then Some STATE_HOME
         else match media d with
              | Some m =>
                if paused m then Some STATE_PAUSED else Some STATE_PLAYING
              | None => if truthy (name a) then Some STATE_ON else None
              end
       end.

Definition app_name (d : Device) : option string :=
  match app d with
  | Some a => Some (name a)
  | None => None
  end.

Definition app_id (d : Device) : option string :=
  match app d with
  | Some a => Some (Data.app_id a)
  | None => None
  end.

(** [self.app_id != "tvinput.dtv"] *)
Definition app_id_is_not (d : Device) (s : string) : bool :=
  match app_id d with
  | Some i => negb (i =? s)
  | None => true
  end.

Definition media_content_type (d : Device) : option string :=
  match app_id d, app_name d with
  | Some i, Some n =>
    if in2 n "Power Saver" "Roku" then None
    else match channel d with
         | Some _ =>
           if i =? "tvinput.dtv" then Some MEDIA_TYPE_CHANNEL
           else Some MEDIA_TYPE_APP
         | None => Some MEDIA_TYPE_APP
         end
  | _, _ => None
  end.

Definition media_channel (d : Device) : option string :=
  if app_id_is_not d "tvinput.dtv" then None
  else match channel d with
       | None => None
       | Some ch =>
         match channel_name ch with
         | Some n => Some (n ++ " (" ++ number ch ++ ")")%string
         | None => Some (number ch)
         end
       end.

Definition media_title (d : Device) : option string :=
  if app_id_is_not d "tvinput.dtv" then None
  else match channel d with
       | None => None
       | Some ch =>
         match program_title ch with
         | Some t => Some t
         | None => None
         end
       end.

Definition media_duration (d : Device) : option Z :=
  if _media_playback_trackable d
  then option_map duration (media d)
  else None.

Definition media_position (d : Device) : option Z :=
  if _media_playback_trackable d
  then option_map position (media d)
  else None.

Definition media_position_updated_at (d : Device) : option Z :=
  if _media_playback_trackable d
  then option_map at_ (media d)
  else None.

Definition source (d : Device) : option string :=
  match app d with
  | Some a => Some (name a)
  | None => None
  end.

Definition source_list (d : Device) : list string :=
  ["Home"] ++ sorted (map name (apps d)).

(** [MediaPlayerDeviceClass.TV] and [MediaPlayerDeviceClass.RECEIVER] are the
    strings "tv" and "receiver". *)
Definition device_class (d : Device) : string :=
  if device_type (info d) =? "tv" then "tv" else "receiver".

(** [app_icon_url] is the vendor client's builder of an app's icon URL. *)
Definition media_image_url (app_icon_url : string -> string) (d : Device)
  : option string :=
  match app_id d, app_name d with
  | Some i, Some n =>
    if in2 n "Power Saver" "Roku" then None else Some (app_icon_url i)
  | _, _ => None
  end.

(** *** Command handlers *)

Definition search (d : Device) (keyword : string) : M unit :=
  roku_exception_handler (roku_search keyword).

Definition async_turn_on (d : Device) : M unit :=
  roku_exception_handler (remote "poweron" ;; async_request_refresh).

Definition async_turn_off (d : Device) : M unit :=
  roku_exception_handler (remote "poweroff" ;; async_request_refresh).

(** [self.state not in (a, b)]; the state may be [None]. *)
Definition state_not_in (d : Device) (l : list string) : bool :=
  match state d with
  | Some s => negb (existsb (String.eqb s) l)
  | None => true
  end.

Definition async_media_pause (d : Device) : M unit :=
  roku_exception_handler
    (if state_not_in d [STATE_STANDBY; STATE_PAUSED]
     then remote "play" ;; async_request_refresh
     else ret tt).

Definition async_media_play (d : Device) : M unit :=
  roku_exception_handler
    (if state_not_in d [STATE_STANDBY; STATE_PLAYING]
     then remote "play" ;; async_request_refresh
     else ret tt).

Definition async_media_play_pause (d : Device) : M unit :=
  roku_exception_handler
    (if state_not_in d [STATE_STANDBY]
     then remote "play" ;; async_request_refresh
     else ret tt).

Definition async_media_previous_track (d : Device) : M unit :=
  roku_exception_handler (remote "reverse" ;; async_request_refresh).

Definition async_media_next_track (d : Device) : M unit :=
  roku_exception_handler (remote "forward" ;; async_request_refresh).

Definition async_mute_volume (d : Device) (mute : bool) : M unit :=
  roku_exception_handler (remote "volume_mute" ;; async_request_refresh).

Definition async_volume_up (d : Device) : M unit :=
  roku_exception_handler (remote "volume_up").

Definition async_volume_down (d : Device) : M unit :=
  roku_exception_handler (remote "volume_down").

Definition async_play_media (d : Device) (media_type media_id : string)
  : M unit :=
  roku_exception_handler
    (if negb (existsb (String.eqb media_type)
                [MEDIA_TYPE_APP; MEDIA_TYPE_CHANNEL;
                 FORMAT_CONTENT_TYPE HLS_PROVIDER])
     then log_error "Invalid media type %s. Only %s and %s are supported"
            [media_type; MEDIA_TYPE_APP; MEDIA_TYPE_CHANNEL]
     else
       (if media_type =? MEDIA_TYPE_APP then
          let media_array := split_comma media_id in
          if (1 <? List.length media_array)%nat then
            let app_id := strip (nth 0 media_array "") in
            let content_id := strip (nth 1 media_array "") in
            log_info "Launching Roku app %s with deep link %s"
              [app_id; content_id] ;;
            launch app_id (Some [("contentId", quote content_id)])
          else
            log_info "Launching Roku app %s" [media_id] ;;
            launch media_id None
        else if media_type =? FORMAT_CONTENT_TYPE HLS_PROVIDER then
          log_info "Launching Roku side loaded app with deep link %s"
            [media_id] ;;
          launch "dev" (Some [("contentId", quote media_id)])
        else if media_type =? MEDIA_TYPE_CHANNEL then
          log_info "Switching to Roku TV channel %s" [media_id] ;;
          tune media_id
        else ret tt) ;;
       async_request_refresh).

Definition async_select_source (d : Device) (source : string) : M unit :=
  roku_exception_handler
    ((if source =? "Home" then remote "home" else ret tt) ;;
     let appl :=
       find (fun app => in2 source (name app) (Data.app_id app)) (apps d) in
     (match appl with
      | Some a => launch (Data.app_id a) None
      | None => ret tt
      end) ;;
     async_request_refresh).

End MediaPlayer.

(** ** [remote.py]: [RokuRemote] *)

Module RokuRemote.
Import Data.

Definition is_on (d : Device) : bool := negb (standby (Data.state d)).

Definition async_turn_on (d : Device) : M unit :=
  roku_exception_handler (remote "poweron" ;; async_request_refresh).

Definition async_turn_off (d : Device) : M unit :=
  roku_exception_handler (remote "poweroff" ;; async_request_refresh).

Definition async_send_command (d : Device) (command : list string)
  (num_repeats : Z) : M unit :=
  roku_exception_handler
    (for_each (range num_repeats) (fun _ =>
       for_each command (fun single_command => remote single_command)) ;;
     async_request_refresh).

End RokuRemote.

(** ** [__init__.py]: setting up and unloading a config entry *)

Module Integration.

(** A config entry of the host platform: its id and [entry.data[CONF_HOST]]. *)
Record ConfigEntry := mkConfigEntry {
  entry_id : string;
  host : string
}.

(** Modelled from the spec: the coordinator's module is not among the
    repository's sources; a coordinator is made for a host. *)
Record Coordinator := mkCoordinator {
  coordinator_host : string
}.

(** [hass.data[DOMAIN]]: a dict from entry ids to coordinators. *)
Definition Entries := string -> option Coordinator.

Definition no_entries : Entries := fun _ => None.

(** [m[k] = c] *)
Definition store (m : Entries) (k : string) (c : Coordinator) : Entries :=
  fun k' => if k' =? k then Some c else m k'.

(** [m.pop(k)], the key being present. *)
Definition pop (m : Entries) (k : string) : Entries :=
  fun k' => if k' =? k then None else m k'.

(** The part of the host platform the two functions touch:
    [hass.data.get(DOMAIN)] and the entries whose platforms were set up. *)
Record Hass := mkHass {
  domain_data : option Entries;
  forwarded : list string
}.

(** [hass.data[DOMAIN].get(k)], where the domain's dict exists. *)
Definition lookup (hass : Hass) (k : string) : option Coordinator :=
  match domain_data hass with
  | Some m => m k
  | None => None
  end.

(** The first refresh failing, and the two [KeyError]s of
    [hass.data[DOMAIN].pop(entry_id)]. *)
Inductive SetupError :=
| ConfigEntryNotReady
| KeyErrorDomain
| KeyErrorEntry (key : string).

Inductive Outcome (A : Type) :=
| Returned (a : A)
| Raised (e : SetupError).

Arguments Returned {A} a.
Arguments Raised {A} e.

(** [first_refresh] is [coordinator.async_config_entry_first_refresh]:
    [None] when it returns, the error it raises otherwise. *)
Definition async_setup_entry (first_refresh : Coordinator -> option SetupError)
  (entry : ConfigEntry) (hass : Hass) : Outcome bool * Hass :=
  let entries :=
    match domain_data hass with
    | Some m => m
    | None => no_entries
    end in
  let '(coordinator, entries) :=
    match entries (entry_id entry) with
    | Some c => (c, entries)
    | None =>
      let c := mkCoordinator (host entry) in
      (c, store entries (entry_id entry) c)
    end in
  match first_refresh coordinator with
  | Some e => (Raised e, mkHass (Some entries) (forwarded hass))
  | None =>
    (Returned true,
     mkHass (Some entries) (forwarded hass ++ [entry_id entry]))
  end.

(** [unload_ok] is what [hass.config_entries.async_unload_platforms]
    returns. *)
Definition async_unload_entry (unload_ok : bool) (entry : ConfigEntry)
  (hass : Hass) : Outcome bool * Hass :=
  if unload_ok then
    match domain_data hass with
    | None => (Raised KeyErrorDomain, hass)
    | Some m =>
      match m (entry_id entry) with
      | None => (Raised (KeyErrorEntry (entry_id entry)), hass)
      | Some _ =>
        (Returned true,
         mkHass (Some (pop m (entry_id entry))) (forwarded hass))
      end
    end
  else (Returned false, hass).

End Integration.

(** ** The commands the host platform sends to the two entities *)

Inductive Command :=
| turn_on
| turn_off
| media_pause
| media_play
| media_play_pause
| media_previous_track
| media_next_track
| mute_volume (mute : bool)
| volume_up
| volume_down
| play_media (media_type media_id : string)
| select_source (source : string)
| search (keyword : string)
| remote_turn_on
| remote_turn_off
| send_command (command : list string) (num_repeats : Z).

Definition dispatch (c : Command) (d : Data.Device) : M unit :=
  match c with
  | turn_on => MediaPlayer.async_turn_on d
  | turn_off => MediaPlayer.async_turn_off d
  | media_pause => MediaPlayer.async_media_pause d
  | media_play => MediaPlayer.async_media_play d
  | media_play_pause => MediaPlayer.async_media_play_pause d
  | media_previous_track => MediaPlayer.async_media_previous_track d
  | media_next_track => MediaPlayer.async_media_next_track d
  | mute_volume mute => MediaPlayer.async_mute_volume d mute
  | volume_up => MediaPlayer.async_volume_up d
  | volume_down => MediaPlayer.async_volume_down d
  | play_media media_type media_id =>
    MediaPlayer.async_play_media d media_type media_id
  | select_source source => MediaPlayer.async_select_source d source
  | search keyword => MediaPlayer.search d keyword
  | remote_turn_on => RokuRemote.async_turn_on d
  | remote_turn_off => RokuRemote.async_turn_off d
  | send_command command num_repeats =>
    RokuRemote.async_send_command d command num_repeats
  end.

(** ** Observations on a run *)

(** The events a handler adds to the trace of the world it starts in. *)
Definition events {A : Type} (m : M A) (w : World) : list Event :=
  skipn (List.length (trace w)) (trace (snd (m w))).

Definition is_refresh (ev : Event) : bool :=
  match ev with
  | RequestRefresh => true
  | _ => false
  end.

Definition is_vendor_call (ev : Event) : bool :=
  match ev with
  | Remote _ | Launch _ _ | Tune _ | Search _ => true
  | _ => false
  end.

Definition is_remote (ev : Event) : bool :=
  match ev with
  | Remote _ => true
  | _ => false
  end.

Definition refresh_requests (l : list Event) : nat :=
  List.length (filter is_refresh l).

Definition vendor_calls (l : list Event) : list Event :=
  filter is_vendor_call l.

(** The world after [es] has been added to the trace, [n] of them vendor
    calls. *)
Definition after (w : World) (es : list Event) (n : nat) : World :=
  mkWorld (trace w ++ es) (calls w + n) (vendor w) (available w).

(** The vendor client answers every call: none raises. *)
Definition responsive (w : World) : Prop :=
  forall n, vendor w n = None.

(** An exception the decorator has a clause for. *)
Definition vendor_error (e : Exn) : Prop :=
  match e with
  | RokuConnectionError _ | RokuError _ => True
  | OtherException _ => False
  end.

(** The vendor client raises nothing but its own two kinds of error. *)
Definition vendor_errors_only (w : World) : Prop :=
  forall n e, vendor w n = Some e -> vendor_error e.

(** The line the decorator logs for a vendor error. *)
Definition api_log (e : Exn) : Event :=
  match e with
  | RokuConnectionError msg =>
    LogError "Error communicating with API: %s" [msg]
  | RokuError msg => LogError "Invalid response from API: %s" [msg]
  | OtherException msg => LogError "" [msg]
  end.

Fixpoint mem_char (c : ascii) (s : string) : bool :=
  match s with
  | EmptyString => false
  | String c' s' => Ascii.eqb c' c || mem_char c s'
  end.

(** A handler body keeps to the order of its vendor calls: it leaves the
    vendor client and the availability as they are, every call it issues
    but the last has succeeded, and it raises only what its last call
    raised. *)
Definition orderly {A : Type} (m : M A) : Prop :=
  forall w,
    vendor (snd (m w)) = vendor w /\
    available (snd (m w)) = available w /\
    (calls w <= calls (snd (m w)))%nat /\
    (forall n, (calls w <= n)%nat -> (S n < calls (snd (m w)))%nat ->
               vendor w n = None) /\
    match fst (m w) with
    | Ok _ =>
      forall n, (calls w <= n)%nat -> (n < calls (snd (m w)))%nat ->
                vendor w n = None
    | Raise e =>
      (calls w < calls (snd (m w)))%nat /\
      vendor w (pred (calls (snd (m w)))) = Some e
    end.

(** A handler as the entities define them: a body under the decorator. *)
Definition decorated (m : M unit) : Prop :=
  exists func, m = roku_exception_handler func /\ orderly func.

(** ** Observations on strings *)

Fixpoint all_chars (P : ascii -> bool) (s : string) : bool :=
  match s with
  | EmptyString => true
  | String c s' => P c && all_chars P s'
  end.

(** A character that may stand in a URL as it is, or the percent sign of an
    escape. *)
Definition url_safe (c : ascii) : bool :=
  unreserved c || Ascii.eqb c "%"%char.

(** The text neither starts nor ends with a white space character, white
    space being what [str.strip] removes. *)
Definition trimmed (s : string) : Prop :=
  drop_space space_encodings (list_ascii_of_string s) = None /\
  drop_space space_encodings_reversed (rev (list_ascii_of_string s)) = None.

(** The value of an upper case hexadecimal digit. *)
Definition hex_value (c : ascii) : nat :=
  let n := nat_of_ascii c in
  if (n <? 58)%nat then n - 48 else n - 55.

(** Percent-decoding, the inverse the device applies to a deep link: an
    escape of two digits becomes the byte it stands for. *)
Fixpoint unquote (s : string) : string :=
  match s with
  | EmptyString => ""
  | String c rest =>
    if Ascii.eqb c "%"%char then
      match rest with
      | String h (String l rest') =>
        String (ascii_of_nat (16 * hex_value h + hex_value l)) (unquote rest')
      | _ => String c (unquote rest)
      end
    else String c (unquote rest)
  end.

(** ** Further observations on a run *)

(** A line the decorator logs for a vendor error. *)
Definition is_api_error (ev : Event) : bool :=
  match ev with
  | LogError msg _ =>
    (msg =? "Error communicating with API: %s")
    || (msg =? "Invalid response from API: %s")
  | _ => false
  end.

Definition api_error_lines (l : list Event) : nat :=
  List.length (filter is_api_error l).

(** One of the vendor calls issued between [w] and [w'] raised. *)
Definition call_failed (w w' : World) : bool :=
  existsb (fun n => match vendor w n with Some _ => true | None => false end)
    (seq (calls w) (calls w' - calls w)).

(** All a handler adds to the trace are events that satisfy [P]. *)
Definition emits {A : Type} (P : Event -> bool) (m : M A) : Prop :=
  forall w, exists es,
    trace (snd (m w)) = trace w ++ es /\ forallb P es = true.

Definition not_refresh (ev : Event) : bool := negb (is_refresh ev).

Definition not_api_error (ev : Event) : bool := negb (is_api_error ev).

(** A body that raises has requested no refresh. *)
Definition refresh_only_on_return {A : Type} (m : M A) : Prop :=
  forall w e,
    fst (m w) = Raise e ->
    exists es,
      trace (snd (m w)) = trace w ++ es /\ refresh_requests es = 0%nat.

(** What the entities' handlers are made of: a body under the decorator
    that keeps to the order of its calls, logs no vendor error itself and
    requests the refresh only once its calls are through. *)
Definition well_formed_handler (m : M unit) : Prop :=
  exists func,
    m = roku_exception_handler func /\
    orderly func /\
    emits not_api_error func /\
    refresh_only_on_return func.

(** ** The statements of the spec, in its words *)

Module Spec.
Import Data.

(** The precedence list of the playback state: the rule that applies to a
    snapshot, each rule under the condition that no earlier one applies. *)
Inductive playback_state (d : Device) : option string -> Prop :=
| ps_standby :
    standby (Data.state d) = true ->
    playback_state d (Some "standby")
| ps_no_app :
    standby (Data.state d) = false ->
    app d = None ->
    playback_state d None
| ps_idle a :
    standby (Data.state d) = false ->
    app d = Some a ->
    name a = "Power Saver" \/ screensaver a = true ->
    playback_state d (Some "idle")
| ps_home a :
    standby (Data.state d) = false ->
    app d = Some a ->
    name a <> "Power Saver" -> screensaver a = false ->
    name a = "Roku" ->
    playback_state d (Some "home")
| ps_paused a m :
    standby (Data.state d) = false ->
    app d = Some a ->
    name a <> "Power Saver" -> screensaver a = false ->
    name a <> "Roku" ->
    media d = Some m ->
    paused m = true ->
    playback_state d (Some "paused")
| ps_playing a m :
    standby (Data.state d) = false ->
    app d = Some a ->
    name a <> "Power Saver" -> screensaver a = false ->
    name a <> "Roku" ->
    media d = Some m ->
    paused m = false ->
    playback_state d (Some "playing")
| ps_on a :
    standby (Data.state d) = false ->
    app d = Some a ->
    name a <> "Power Saver" -> screensaver a = false ->
    name a <> "Roku" ->
    media d = None ->
    name a <> "" ->
    playback_state d (Some "on")
| ps_unknown a :
    standby (Data.state d) = false ->
    app d = Some a ->
    name a <> "Power Saver" -> screensaver a = false ->
    name a <> "Roku" ->
    media d = None ->
    name a = "" ->
    playback_state d None.

(** Media data exists, is not flagged live and has a positive duration. *)
Definition trackable (d : Device) : Prop :=
  exists m, media d = Some m /\ live m = false /\ (0 < duration m)%Z.

(** Ascending by the default comparison of strings. *)
Definition ascending (l : list string) : Prop :=
  StronglySorted (fun a b => (a <=? b)%string = true) l.

(** The dispatch table's row for [select source], with its [else]: what
    the handler sends to the vendor client and the coordinator. *)
Definition select_source_row (d : Device) (source : string) : list Event :=
  if source =? "Home" then [Remote "home"; RequestRefresh]
  else match find (fun a => in2 source (name a) (Data.app_id a)) (apps d) with
       | Some a => [Launch (Data.app_id a) None; RequestRefresh]
       | None => [RequestRefresh]
       end.





(** The table's row for [send remote command(s)], with no condition on the
    vendor client: N passes over the keys, then the refresh. *)
Definition send_command_row (command : list string) (N : Z) : list Event :=
  List.concat (repeat (map Remote command) (Z.to_nat N)) ++ [RequestRefresh].

(** The table's row for [play media, type=app], the parts of the pair taken
    as they are given: what is sent to the vendor client. *)
Definition play_media_app_row (media_id : string) : list Event :=
  match split_comma media_id with
  | p0 :: p1 :: _ => [Launch p0 (Some [("contentId", quote p1)])]
  | _ => [Launch media_id None]
  end.

End Spec.

(** ** Sample snapshots and worlds *)

Module Sample.
Import Data.

Definition netflix := mkApplication "Netflix" "12" false.
Definition hulu := mkApplication "Hulu" "2285" false.
Definition home_app := mkApplication "Home" "99" false.
Definition tuner := mkApplication "Antenna TV" "tvinput.dtv" false.

Definition movie := mkMediaState false false 5400 120 1650000000.
Definition live_show := mkMediaState false true 5400 120 1650000000.
Definition news := mkChannel "14.1" (Some "WXYZ") (Some "Evening News").

Definition player := mkInfo "Living Room" "YN00H5555555" "box".

(** A player running Netflix with a film playing. *)
Definition watching : Device :=
  mkDevice player (mkState false) (Some netflix) [netflix; hulu]
    (Some movie) None.

(** The same, with the film flagged live. *)
Definition watching_live : Device :=
  mkDevice player (mkState false) (Some netflix) [netflix; hulu]
    (Some live_show) None.

(** A player on the tuner input. *)
Definition tuned : Device :=
  mkDevice player (mkState false) (Some tuner) [netflix; hulu]
    None (Some news).

(** A player with an installed app that is itself named "Home". *)
Definition with_home_app : Device :=
  mkDevice player (mkState false) (Some netflix) [netflix; home_app]
    None None.

(** An available entity whose vendor client answers every call. *)
Definition quiet : World := mkWorld [] 0 (fun _ => None) true.

(** An available entity whose vendor client fails the first call with a
    connection error. *)
Definition unreachable : World :=
  mkWorld [] 0
    (fun n => match n with
              | O => Some (RokuConnectionError "timeout")
              | S _ => None
              end)
    true.

(** An available entity whose vendor client fails the first call with an
    exception that is not the vendor library's. *)
Definition broken : World :=
  mkWorld [] 0
    (fun n => match n with
              | O => Some (OtherException "cancelled")
              | S _ => None
              end)
    true.

(** An entity that is not available and whose vendor client fails the first
    call with a connection error. *)
Definition offline : World :=
  mkWorld [] 0
    (fun n => match n with
              | O => Some (RokuConnectionError "timeout")
              | S _ => None
              end)
    false.

(** A host platform with nothing set up, an entry, and first refreshes that
    succeed and fail. *)
Definition fresh_hass : Integration.Hass := Integration.mkHass None [].

Definition living_room : Integration.ConfigEntry :=
  Integration.mkConfigEntry "entry-1" "192.168.1.20".

Definition refresh_succeeds : Integration.Coordinator ->
                              option Integration.SetupError :=
  fun _ => None.

Definition refresh_fails : Integration.Coordinator ->
                           option Integration.SetupError :=
  fun _ => Some Integration.ConfigEntryNotReady.

(** The no-break space U+00A0 and the em space U+2003, in UTF-8. *)
Definition nbsp : string :=
  String (ascii_of_N 194) (String (ascii_of_N 160) "").

Definition em_space : string :=
  String (ascii_of_N 226) (String (ascii_of_N 128) (String (ascii_of_N 131) "")).

(** A player on its home screen. *)
Definition at_home : Device :=
  mkDevice player (mkState false) (Some (mkApplication "Roku" "562859" false))
    [netflix; hulu] None None.

(** A player in standby. *)
Definition asleep : Device :=
  mkDevice player (mkState true) (Some netflix) [netflix; hulu]
    (Some movie) None.

End Sample.

(** ** What the handlers are observed to do *)

Module Observed.
Import Data.

(** The first installed app whose name or id is [source]. *)
Definition matching_app (d : Device) (source : string)
  : option Application :=
  find (fun a => in2 source (name a) (Data.app_id a)) (apps d).

(** [select source]: the home key for "Home", then the launch of the
    matching app if there is one, then the refresh request. *)
Definition select_source_events (d : Device) (source : string)
  : list Event :=
  (if source =? "Home" then [Remote "home"] else [])
  ++ match matching_app d source with
     | Some a => [Launch (Data.app_id a) None]
     | None => []
     end
  ++ [RequestRefresh].

End Observed.

(** Runs a handler whose vendor calls all succeed, down to the world it
    leaves. *)
Ltac run_ok H :=
  unfold responsive in H;
  cbv [roku_exception_handler bind remote launch tune roku_search
       vendor_call async_request_refresh log_error log_info ret emit after];
  cbn [trace calls vendor available];
  repeat (rewrite H; cbn [trace calls vendor available]);
  rewrite <- ?app_assoc; cbn [app];
  repeat f_equal; lia.

(** * Properties of the state derivation *)

Section StringFacts.

Lemma leb_iff (a b : string) :
  (a <=? b)%string = true <-> a = b \/ String_as_OT.lt a b.
Proof.
  unfold String.leb.
  destruct (a ?= b)%string eqn:E.
  - apply String_as_OT.cmp_eq in E. intuition.
  - apply String_as_OT.cmp_lt in E. intuition.
  - split; [discriminate|].
    intros [H | H].
    + apply String_as_OT.cmp_eq in H. unfold String_as_OT.cmp in H.
      congruence.
    + apply String_as_OT.cmp_lt in H. unfold String_as_OT.cmp in H.
      congruence.
Qed.

Lemma leb_trans (a b c : string) :
  (a <=? b)%string = true -> (b <=? c)%string = true ->
  (a <=? c)%string = true.
Proof.
  rewrite !leb_iff.
  intros [-> | Hab] [-> | Hbc]; auto.
  right. eapply String_as_OT.lt_trans; eauto.
Qed.

Lemma leb_false_flip (a b : string) :
  (a <=? b)%string = false -> (b <=? a)%string = true.
Proof.
  intros H. destruct (String.leb_total a b) as [H' | H']; congruence.
Qed.

End StringFacts.

Section Sorting.

Lemma insert_sorted_perm (x : string) (l : list string) :
  Permutation (x :: l) (insert_sorted x l).
Proof.
  induction l as [| y l IH]; simpl.
  - apply Permutation_refl.
  - destruct (x <=? y)%string.
    + apply Permutation_refl.
    + eapply perm_trans; [apply perm_swap|].
      apply perm_skip. exact IH.
Qed.

Lemma sorted_perm (l : list string) : Permutation l (sorted l).
Proof.
  induction l as [| x l IH]; simpl.
  - constructor.
  - eapply perm_trans; [apply perm_skip, IH|].
    apply insert_sorted_perm.
Qed.

Lemma insert_sorted_ascending (x : string) (l : list string) :
  Spec.ascending l -> Spec.ascending (insert_sorted x l).
Proof.
  unfold Spec.ascending.
  induction l as [| y l IH]; simpl; intros Hs.
  - constructor; constructor.
  - inversion Hs as [| ? ? Hl Hy]; subst.
    destruct (x <=? y)%string eqn:E.
    + constructor; [exact Hs|].
      constructor; [exact E|].
      eapply Forall_impl; [|exact Hy].
      intros z Hz. eapply leb_trans; eauto.
    + constructor; [apply IH; exact Hl|].
      eapply Permutation_Forall; [apply insert_sorted_perm|].
      constructor; [apply leb_false_flip; exact E | exact Hy].
Qed.

Lemma sorted_ascending (l : list string) : Spec.ascending (sorted l).
Proof.
  induction l as [| x l IH]; simpl.
  - constructor.
  - apply insert_sorted_ascending. exact IH.
Qed.

(** Two ascending lists with the same elements are the same list. *)
Lemma ascending_unique (l1 l2 : list string) :
  Spec.ascending l1 -> Spec.ascending l2 -> Permutation l1 l2 -> l1 = l2.
Proof.
  unfold Spec.ascending.
  revert l2. induction l1 as [| x l1 IH]; intros l2 H1 H2 HP.
  - apply Permutation_nil in HP. congruence.
  - destruct l2 as [| y l2].
    + apply Permutation_sym, Permutation_nil in HP. discriminate.
    + inversion H1 as [| ? ? H1l H1x]; subst.
      inversion H2 as [| ? ? H2l H2y]; subst.
      assert (Hxy : x = y).
      { assert (Hx : In x (y :: l2))
          by (eapply Permutation_in; [exact HP | left; reflexivity]).
        assert (Hy : In y (x :: l1))
          by (eapply Permutation_in;
              [apply Permutation_sym; exact HP | left; reflexivity]).
        destruct Hx as [-> | Hx]; [reflexivity|].
        destruct Hy as [-> | Hy]; [reflexivity|].
        rewrite Forall_forall in H1x, H2y.
        apply String.leb_antisym; auto. }
      subst y. f_equal.
      apply IH; auto.
      eapply Permutation_cons_inv; exact HP.
Qed.

End Sorting.

Section Derivation.
Import Data.
Variable d : Device.

(** C1: the derived playback state is the one the precedence list gives,
    the first rule that applies winning: standby; no active app (unknown);
    idle for the power saver or a screensaver; home for the launcher;
    paused or playing when media is present; on when the app has a
    non-empty name; unknown otherwise.  The list gives [r] exactly when
    [state] returns [r]. *)
Theorem state_follows_precedence (r : option string) :
  Spec.playback_state d r <-> MediaPlayer.state d = r.
Proof.
  unfold MediaPlayer.state, truthy. split.
  - intros H; inversion H; subst;
      repeat match goal with
             | E : _ = _ |- _ => rewrite E
             | E : _ <> _ |- _ => apply String.eqb_neq in E; rewrite E
             end; simpl; try reflexivity.
    match goal with
    | E : _ \/ _ |- _ => destruct E as [E | E]; rewrite E
    end.
    + reflexivity.
    + rewrite orb_true_r. reflexivity.
  - intros <-.
    destruct (standby (Data.state d)) eqn:Hs; [now constructor|].
    destruct (app d) as [a|] eqn:Ha; [|now constructor].
    destruct (name a =? "Power Saver") eqn:Hp; simpl.
    { apply String.eqb_eq in Hp. eapply Spec.ps_idle; eauto. }
    apply String.eqb_neq in Hp.
    destruct (screensaver a) eqn:Hv.
    { eapply Spec.ps_idle; eauto. }
    destruct (name a =? "Roku") eqn:Hr.
    { apply String.eqb_eq in Hr. eapply Spec.ps_home; eauto. }
    apply String.eqb_neq in Hr.
    destruct (media d) as [m|] eqn:Hm.
    { destruct (paused m) eqn:Hq.
      - eapply Spec.ps_paused; eauto.
      - eapply Spec.ps_playing; eauto. }
    destruct (name a =? "") eqn:Hn; simpl.
    + apply String.eqb_eq in Hn. eapply Spec.ps_unknown; eauto.
    + apply String.eqb_neq in Hn. eapply Spec.ps_on; eauto.
Qed.

Lemma trackable_iff : MediaPlayer._media_playback_trackable d = true <-> Spec.trackable d.
Proof.
  unfold MediaPlayer._media_playback_trackable, Spec.trackable.
  destruct (media d) as [m|].
  - destruct (live m) eqn:Hl.
    + split; [discriminate|]. intros (m' & E & Hl' & _).
      injection E as <-. congruence.
    + rewrite Z.ltb_lt. split.
      * intros H. exists m. auto.
      * intros (m' & E & _ & H). injection E as <-. exact H.
  - split; [discriminate|]. intros (m' & E & _). discriminate.
Qed.

(** C4: the duration, the position and the time of the position are
    present exactly when media data exists, is not live and has a positive
    duration, and are then the media's own values; in every other case all
    three are absent, and the duration reported is never zero.  Media
    flagged live has all three absent whatever its duration. *)
Theorem media_progress_present_iff_trackable :
  (Spec.trackable d ->
   exists m, media d = Some m /\
     MediaPlayer.media_duration d = Some (duration m) /\
     MediaPlayer.media_position d = Some (position m) /\
     MediaPlayer.media_position_updated_at d = Some (at_ m)) /\
  (~ Spec.trackable d ->
   MediaPlayer.media_duration d = None /\
   MediaPlayer.media_position d = None /\
   MediaPlayer.media_position_updated_at d = None) /\
  (forall m, media d = Some m -> live m = true ->
   MediaPlayer.media_duration d = None /\
   MediaPlayer.media_position d = None /\
   MediaPlayer.media_position_updated_at d = None) /\
  MediaPlayer.media_duration d <> Some 0%Z.
Proof.
  unfold MediaPlayer.media_duration, MediaPlayer.media_position,
    MediaPlayer.media_position_updated_at.
  repeat split.
  - intros H. pose proof H as (m & Hm & _).
    apply trackable_iff in H. rewrite H, Hm. exists m. auto.
  - destruct (MediaPlayer._media_playback_trackable d) eqn:E; auto.
    apply trackable_iff in E. contradiction.
  - destruct (MediaPlayer._media_playback_trackable d) eqn:E; auto.
    apply trackable_iff in E. contradiction.
  - destruct (MediaPlayer._media_playback_trackable d) eqn:E; auto.
    apply trackable_iff in E. contradiction.
  - unfold MediaPlayer._media_playback_trackable. rewrite H, H0. reflexivity.
  - unfold MediaPlayer._media_playback_trackable. rewrite H, H0. reflexivity.
  - unfold MediaPlayer._media_playback_trackable. rewrite H, H0. reflexivity.
  - destruct (MediaPlayer._media_playback_trackable d) eqn:E;
      [|discriminate].
    apply trackable_iff in E. destruct E as (m & Hm & _ & Hd).
    rewrite Hm. simpl. intros [= E]. lia.
Qed.

(** C9: the source list is the fixed entry "Home" followed by the names of
    all installed apps in ascending order of the default, case-sensitive
    string comparison: the rest is a rearrangement of the names, it is
    ascending, and it is the only such list. *)
Theorem source_list_home_then_sorted_names :
  exists rest,
    MediaPlayer.source_list d = "Home" :: rest /\
    Permutation (map name (apps d)) rest /\
    Spec.ascending rest /\
    (forall l, Permutation (map name (apps d)) l -> Spec.ascending l ->
               l = rest).
Proof.
  exists (sorted (map name (apps d))).
  split; [reflexivity|].
  split; [apply sorted_perm|].
  split; [apply sorted_ascending|].
  intros l HP Hl.
  apply ascending_unique; auto using sorted_ascending.
  eapply perm_trans; [apply Permutation_sym; exact HP | apply sorted_perm].
Qed.

(** C10: a media title is reported only when the active app is the TV
    tuner input ("tvinput.dtv") and a channel with a program title is
    present, and it is that title; with any other app running, media or
    not, and with no app at all, the title is absent. *)
Theorem media_title_only_for_tuner :
  (forall t, MediaPlayer.media_title d = Some t <->
     exists a ch, app d = Some a /\ Data.app_id a = "tvinput.dtv" /\
                  channel d = Some ch /\ program_title ch = Some t) /\
  (forall a, app d = Some a -> Data.app_id a <> "tvinput.dtv" ->
     MediaPlayer.media_title d = None) /\
  (app d = None -> MediaPlayer.media_title d = None).
Proof.
  unfold MediaPlayer.media_title, MediaPlayer.app_id_is_not,
    MediaPlayer.app_id.
  repeat split.
  - destruct (app d) as [a|]; [|discriminate].
    destruct (Data.app_id a =? "tvinput.dtv") eqn:E; [|discriminate].
    apply String.eqb_eq in E. simpl.
    destruct (channel d) as [ch|]; [|discriminate].
    destruct (program_title ch) as [t'|] eqn:Ht; [|discriminate].
    intros [= <-]. exists a, ch. auto.
  - intros (a & ch & Ha & Hi & Hc & Ht).
    rewrite Ha, Hi, Hc, Ht. reflexivity.
  - intros a Ha Hi. rewrite Ha.
    apply String.eqb_neq in Hi. rewrite Hi. reflexivity.
  - intros Ha. rewrite Ha. reflexivity.
Qed.

End Derivation.

(** * Properties of the command handlers *)

Section Runs.

Lemma skipn_length_app {A : Type} (l r : list A) :
  skipn (List.length l) (l ++ r) = r.
Proof. induction l as [| x l IH]; simpl; auto. Qed.

Lemma events_of_trace {A : Type} (m : M A) (w : World) (es : list Event) :
  trace (snd (m w)) = trace w ++ es -> events m w = es.
Proof. unfold events. intros ->. apply skipn_length_app. Qed.

Lemma refresh_requests_app (l r : list Event) :
  refresh_requests (l ++ r) = (refresh_requests l + refresh_requests r)%nat.
Proof.
  unfold refresh_requests. rewrite filter_app, length_app. reflexivity.
Qed.

Lemma refresh_requests_remotes (keys : list string) :
  refresh_requests (map Remote keys) = 0%nat.
Proof. induction keys; simpl; auto. Qed.

Lemma responsive_after (w : World) es n :
  responsive w -> responsive (after w es n).
Proof. intros H k. apply H. Qed.

Lemma after_after (w : World) es1 n1 es2 n2 :
  after (after w es1 n1) es2 n2 = after w (es1 ++ es2) (n1 + n2).
Proof.
  unfold after. simpl. rewrite <- app_assoc, Nat.add_assoc. reflexivity.
Qed.

Lemma vendor_call_responsive (ev : Event) (w : World) :
  responsive w -> vendor_call ev w = (Ok tt, after w [ev] 1).
Proof.
  intros H. unfold vendor_call, after. rewrite H.
  rewrite Nat.add_1_r. reflexivity.
Qed.

Lemma emit_after (ev : Event) (w : World) : emit ev w = after w [ev] 0.
Proof. unfold emit, after. rewrite Nat.add_0_r. reflexivity. Qed.

Lemma bind_ok {A B : Type} (m : M A) (k : A -> M B) (w w' : World) (a : A) :
  m w = (Ok a, w') -> bind m k w = k a w'.
Proof. unfold bind. intros ->. reflexivity. Qed.

Lemma handler_ok (func : M unit) (w w' : World) (a : unit) :
  func w = (Ok a, w') -> roku_exception_handler func w = (Ok tt, w').
Proof. unfold roku_exception_handler. intros ->. reflexivity. Qed.

(** One pass over the keys of a command list. *)
Lemma for_each_remote (keys : list string) (w : World) :
  responsive w ->
  for_each keys (fun k => remote k) w =
  (Ok tt, after w (map Remote keys) (List.length keys)).
Proof.
  revert w. induction keys as [| k keys IH]; intros w H; simpl.
  - unfold ret, after. rewrite app_nil_r, Nat.add_0_r.
    destruct w; reflexivity.
  - erewrite bind_ok by (apply vendor_call_responsive; exact H).
    rewrite IH by (apply responsive_after; exact H).
    rewrite after_after. reflexivity.
Qed.

(** The passes of [async_send_command]: as many as the range is long. *)
Lemma for_each_pass {A : Type} (l : list A) (keys : list string) (w : World) :
  responsive w ->
  for_each l (fun _ => for_each keys (fun k => remote k)) w =
  (Ok tt, after w (List.concat (repeat (map Remote keys) (List.length l)))
                (List.length l * List.length keys)).
Proof.
  revert w. induction l as [| x l IH]; intros w H; simpl.
  - unfold ret, after. rewrite app_nil_r, Nat.add_0_r.
    destruct w; reflexivity.
  - erewrite bind_ok by (apply for_each_remote; exact H).
    rewrite IH by (apply responsive_after; exact H).
    rewrite after_after. reflexivity.
Qed.

Lemma range_length (n : Z) : List.length (range n) = Z.to_nat n.
Proof. unfold range. rewrite length_map, length_seq. reflexivity. Qed.

End Runs.


Section SendCommand.
Import Data.

Lemma send_command_run (d : Device) (command : list string) (N : Z)
  (w : World) :
  responsive w ->
  RokuRemote.async_send_command d command N w =
  (Ok tt,
   after w
     (List.concat (repeat (map Remote command) (Z.to_nat N))
      ++ [RequestRefresh])
     (Z.to_nat N * List.length command)).
Proof.
  intros H. unfold RokuRemote.async_send_command.
  apply handler_ok with (a := tt).
  erewrite bind_ok by (apply for_each_pass; exact H).
  unfold async_request_refresh. rewrite emit_after, after_after.
  rewrite range_length, Nat.add_0_r. reflexivity.
Qed.

Lemma remotes_of_passes (command : list string) (n : nat) :
  List.length
    (filter is_remote (List.concat (repeat (map Remote command) n))) =
  (n * List.length command)%nat.
Proof.
  induction n as [| n IH]; simpl; [reflexivity|].
  rewrite filter_app, length_app, IH. f_equal.
  clear IH. induction command; simpl; auto.
Qed.

Lemma refreshes_of_passes (command : list string) (n : nat) :
  refresh_requests (List.concat (repeat (map Remote command) n)) = 0%nat.
Proof.
  induction n as [| n IH]; simpl; [reflexivity|].
  rewrite refresh_requests_app, IH, refresh_requests_remotes. reflexivity.
Qed.

(** C5 (amended): for every command list and repeat count N >= 1, when
    every vendor call succeeds, [send_command] returns normally and what it
    does is N passes over the list, each sending the keys in list order,
    and then one refresh request: N times the number of keys remote-key
    sends, one refresh request, the last event. *)
Theorem send_command_repeats_then_refreshes (d : Device)
  (command : list string) (N : Z) (w : World) :
  (1 <= N)%Z ->
  responsive w ->
  let run := RokuRemote.async_send_command d command N in
  fst (run w) = Ok tt /\
  events run w =
    List.concat (repeat (map Remote command) (Z.to_nat N))
    ++ [RequestRefresh] /\
  Z.of_nat (List.length (filter is_remote (events run w))) =
    (N * Z.of_nat (List.length command))%Z /\
  refresh_requests (events run w) = 1%nat.
Proof.
  intros HN H run. subst run.
  pose proof (send_command_run d command N w H) as R.
  assert (E : events (RokuRemote.async_send_command d command N) w =
              List.concat (repeat (map Remote command) (Z.to_nat N))
              ++ [RequestRefresh])
    by (apply events_of_trace; rewrite R; reflexivity).
  rewrite E, R. repeat split.
  - rewrite filter_app, length_app, remotes_of_passes. simpl. lia.
  - rewrite refresh_requests_app, refreshes_of_passes. reflexivity.
Qed.

(** C5, as stated, with no condition on the vendor client: when the first
    key send fails, [send_command] stops there; of up, up, select twice over
    it sends the first key alone and requests no refresh. *)
Lemma send_command_stops_at_failed_key :
  events
    (RokuRemote.async_send_command Sample.watching ["up"; "up"; "select"] 2)
    Sample.unreachable =
    [Remote "up"; LogError "Error communicating with API: %s" ["timeout"]] /\
  Spec.send_command_row ["up"; "up"; "select"] 2 =
    [Remote "up"; Remote "up"; Remote "select";
     Remote "up"; Remote "up"; Remote "select"; RequestRefresh] /\
  events
    (RokuRemote.async_send_command Sample.watching ["up"; "up"; "select"] 2)
    Sample.unreachable <>
  Spec.send_command_row ["up"; "up"; "select"] 2.
Proof.
  split; [vm_compute; reflexivity|].
  split; [vm_compute; reflexivity|].
  vm_compute. discriminate.
Qed.

End SendCommand.

Section SelectSource.
Import Data.

Lemma select_source_run (d : Device) (source : string) (w : World) :
  responsive w ->
  exists n,
    MediaPlayer.async_select_source d source w =
    (Ok tt, after w (Observed.select_source_events d source) n).
Proof.
  intros H.
  unfold MediaPlayer.async_select_source, Observed.select_source_events,
    Observed.matching_app.
  destruct (source =? "Home");
    destruct (find _ (apps d)) as [a|].
  - exists 2%nat. run_ok H.
  - exists 1%nat. run_ok H.
  - exists 1%nat. run_ok H.
  - exists 0%nat. run_ok H.
Qed.

Lemma select_source_events_refresh (d : Device) (source : string) :
  refresh_requests (Observed.select_source_events d source) = 1%nat.
Proof.
  unfold Observed.select_source_events.
  destruct (source =? "Home"); destruct (Observed.matching_app d source);
    reflexivity.
Qed.

(** C2 (amended): with the vendor client answering, [select_source]
    returns normally and does this: it sends the "home" key when the
    source is "Home"; then, whatever the source, it launches the first
    installed app whose name or id equals the source, if there is one;
    then it requests the one refresh.  So "Home" always sends the home key
    first and requests exactly one refresh, and the table's row with its
    [else] describes the handler whenever the source is not "Home" or no
    installed app is named or identified "Home". *)
Theorem select_source_home_key_then_matching_app (d : Device)
  (source : string) (w : World) :
  responsive w ->
  let run := MediaPlayer.async_select_source d source in
  fst (run w) = Ok tt /\
  events run w = Observed.select_source_events d source /\
  refresh_requests (events run w) = 1%nat /\
  (source = "Home" -> exists rest, events run w = Remote "home" :: rest) /\
  (source <> "Home" \/ Observed.matching_app d source = None ->
   events run w = Spec.select_source_row d source).
Proof.
  intros H run. subst run.
  destruct (select_source_run d source w H) as [n R].
  assert (E : events (MediaPlayer.async_select_source d source) w =
              Observed.select_source_events d source)
    by (apply events_of_trace; rewrite R; reflexivity).
  rewrite E, R. repeat split.
  - apply select_source_events_refresh.
  - intros ->. unfold Observed.select_source_events. simpl. eauto.
  - unfold Observed.select_source_events, Spec.select_source_row,
      Observed.matching_app.
    intros [Hs | Hm].
    + apply String.eqb_neq in Hs. rewrite Hs.
      destruct (find _ (apps d)); reflexivity.
    + unfold Observed.matching_app in Hm. rewrite Hm.
      destruct (source =? "Home"); reflexivity.
Qed.

(** C2, as the table states it: with an installed app named "Home", the
    source "Home" sends the home key and also launches that app, which the
    row's [else] excludes. *)
Lemma select_source_home_also_launches :
  events (MediaPlayer.async_select_source Sample.with_home_app "Home")
    Sample.quiet =
    [Remote "home"; Launch "99" None; RequestRefresh] /\
  Spec.select_source_row Sample.with_home_app "Home" =
    [Remote "home"; RequestRefresh] /\
  events (MediaPlayer.async_select_source Sample.with_home_app "Home")
    Sample.quiet <>
  Spec.select_source_row Sample.with_home_app "Home".
Proof.
  repeat split; [vm_compute; reflexivity .. | vm_compute; discriminate].
Qed.

End SelectSource.

Section Refresh.
Import Data.


Lemma play_media_unsupported_events (d : Device)
  (media_type media_id : string) (w : World) :
  existsb (String.eqb media_type)
    [MEDIA_TYPE_APP; MEDIA_TYPE_CHANNEL; FORMAT_CONTENT_TYPE HLS_PROVIDER]
  = false ->
  MediaPlayer.async_play_media d media_type media_id w =
  (Ok tt,
   emit (LogError "Invalid media type %s. Only %s and %s are supported"
           [media_type; MEDIA_TYPE_APP; MEDIA_TYPE_CHANNEL]) w).
Proof.
  intros Hs. unfold MediaPlayer.async_play_media. rewrite Hs. reflexivity.
Qed.



End Refresh.

Section PlayMedia.
Import Data.

(** A text without a comma is its own single piece. *)
Lemma split_comma_single (s : string) :
  mem_char comma s = false -> split_comma s = [s].
Proof.
  induction s as [| c s IH]; simpl; [reflexivity|].
  destruct (Ascii.eqb c comma); simpl; [discriminate|].
  intros H. rewrite (IH H). reflexivity.
Qed.

(** The first piece ends at the first comma. *)
Lemma split_comma_first (a b : string) :
  mem_char comma a = false ->
  split_comma (a ++ String comma b) = a :: split_comma b.
Proof.
  induction a as [| c a IH]; simpl.
  - intros _. reflexivity.
  - destruct (Ascii.eqb c comma); simpl; [discriminate|].
    intros H. rewrite (IH H). reflexivity.
Qed.

(** What [play_media] of type app sends to the vendor client, whatever
    the client answers. *)
Lemma play_media_app_calls (d : Device) (media_id : string) (w : World) :
  vendor_calls
    (events (MediaPlayer.async_play_media d MEDIA_TYPE_APP media_id) w) =
  match split_comma media_id with
  | p0 :: p1 :: _ =>
    [Launch (strip p0) (Some [("contentId", quote (strip p1))])]
  | _ => [Launch media_id None]
  end.
Proof.
  unfold MediaPlayer.async_play_media. cbn [existsb negb].
  change (MEDIA_TYPE_APP =? MEDIA_TYPE_APP) with true. cbn [orb negb].
  destruct (split_comma media_id) as [| p0 [| p1 ps]] eqn:E;
    cbn [List.length Nat.ltb Nat.leb nth];
    unfold events;
    cbv [roku_exception_handler bind launch vendor_call
         async_request_refresh log_error log_info ret emit];
    cbn [trace calls vendor available];
    (destruct (vendor w (calls w)) as [[msg | msg | msg] |];
     [ destruct (available w) | destruct (available w) | | ]);
    cbn [trace calls vendor available snd fst];
    rewrite <- ?app_assoc; cbn [app];
    rewrite ?skipn_length_app; reflexivity.
Qed.

(** C6 (amended): [play_media] of type app.  A media id with a comma makes
    one vendor call: the launch of the app whose id is the first part, with
    the deep-link parameter [contentId] set to the URL-escaped second part,
    each part taken without the white space around it, as [strip] removes
    it, and anything after a second comma ignored; so "12,ABC123" launches
    app "12" with [contentId] the escaped "ABC123".  A media id without a
    comma makes one vendor call: the launch of the app of that id, as it is
    given, with no parameters. *)
Theorem play_media_app_launches (d : Device) (media_id : string)
  (w : World) :
  let calls_made :=
    vendor_calls
      (events (MediaPlayer.async_play_media d MEDIA_TYPE_APP media_id) w) in
  (forall a b,
      mem_char comma a = false -> mem_char comma b = false ->
      media_id = (a ++ String comma b)%string ->
      calls_made =
      [Launch (strip a) (Some [("contentId", quote (strip b))])]) /\
  (forall a b c,
      mem_char comma a = false -> mem_char comma b = false ->
      media_id = (a ++ String comma (b ++ String comma c))%string ->
      calls_made =
      [Launch (strip a) (Some [("contentId", quote (strip b))])]) /\
  (mem_char comma media_id = false ->
   calls_made = [Launch media_id None]) /\
  (media_id = "12,ABC123" ->
   calls_made = [Launch "12" (Some [("contentId", "ABC123")])]).
Proof.
  intros calls_made. subst calls_made.
  rewrite play_media_app_calls.
  split; [|split; [|split]].
  - intros a b Ha Hb ->.
    rewrite (split_comma_first a b Ha), (split_comma_single b Hb).
    reflexivity.
  - intros a b c Ha Hb ->.
    rewrite (split_comma_first a _ Ha), (split_comma_first b c Hb).
    reflexivity.
  - intros H. rewrite (split_comma_single media_id H). reflexivity.
  - intros ->. vm_compute. reflexivity.
Qed.

(** C6, as stated, the parts taken as they are given: for "12, ABC123" the
    claim has the content id " ABC123", escaped "%20ABC123"; the handler
    strips the part and sends "ABC123". *)
Lemma play_media_app_strips_the_parts :
  vendor_calls
    (events
       (MediaPlayer.async_play_media Sample.watching MEDIA_TYPE_APP
          "12, ABC123")
       Sample.quiet) =
    [Launch "12" (Some [("contentId", "ABC123")])] /\
  Spec.play_media_app_row "12, ABC123" =
    [Launch "12" (Some [("contentId", "%20ABC123")])] /\
  vendor_calls
    (events
       (MediaPlayer.async_play_media Sample.watching MEDIA_TYPE_APP
          "12, ABC123")
       Sample.quiet) <>
  Spec.play_media_app_row "12, ABC123".
Proof.
  split; [vm_compute; reflexivity|].
  split; [vm_compute; reflexivity|].
  vm_compute. discriminate.
Qed.

(** C8: for every media type other than app, channel and the side-loaded
    stream type, [play_media] logs an error and does nothing else: it
    returns normally, makes no vendor call and requests no refresh,
    whatever the vendor client would have answered. *)
Theorem play_media_unsupported_is_noop (d : Device)
  (media_type media_id : string) (w : World) :
  media_type <> MEDIA_TYPE_APP ->
  media_type <> MEDIA_TYPE_CHANNEL ->
  media_type <> FORMAT_CONTENT_TYPE HLS_PROVIDER ->
  let run := MediaPlayer.async_play_media d media_type media_id in
  fst (run w) = Ok tt /\
  events run w =
    [LogError "Invalid media type %s. Only %s and %s are supported"
       [media_type; MEDIA_TYPE_APP; MEDIA_TYPE_CHANNEL]] /\
  vendor_calls (events run w) = [] /\
  calls (snd (run w)) = calls w /\
  refresh_requests (events run w) = 0%nat.
Proof.
  intros Ha Hc Hh run. subst run.
  apply String.eqb_neq in Ha, Hc, Hh.
  assert (Hs : existsb (String.eqb media_type)
                 [MEDIA_TYPE_APP; MEDIA_TYPE_CHANNEL;
                  FORMAT_CONTENT_TYPE HLS_PROVIDER] = false)
    by (simpl; rewrite Ha, Hc, Hh; reflexivity).
  unfold events.
  rewrite (play_media_unsupported_events d media_type media_id w Hs).
  cbn [fst snd emit trace calls]. rewrite skipn_length_app.
  repeat split.
Qed.

End PlayMedia.

Section ExceptionHandler.
Import Data.

Lemma orderly_ret {A : Type} (a : A) : orderly (ret a).
Proof.
  intros w. unfold ret. simpl. repeat split; auto; intros; lia.
Qed.

Lemma orderly_vendor_call (ev : Event) : orderly (vendor_call ev).
Proof.
  intros w. unfold vendor_call.
  destruct (vendor w (calls w)) as [e|] eqn:E; simpl.
  - repeat split; auto; intros; lia.
  - repeat split; auto; try (intros; lia).
    intros n H1 H2. replace n with (calls w) by lia. exact E.
Qed.

Lemma orderly_request_refresh : orderly async_request_refresh.
Proof.
  intros w. unfold async_request_refresh. simpl.
  repeat split; auto; intros; lia.
Qed.

Lemma orderly_log_error msg args : orderly (log_error msg args).
Proof.
  intros w. unfold log_error. simpl. repeat split; auto; intros; lia.
Qed.

Lemma orderly_log_info msg args : orderly (log_info msg args).
Proof.
  intros w. unfold log_info. simpl. repeat split; auto; intros; lia.
Qed.

Lemma orderly_bind {A B : Type} (m : M A) (k : A -> M B) :
  orderly m -> (forall a, orderly (k a)) -> orderly (bind m k).
Proof.
  intros Hm Hk w. unfold bind.
  specialize (Hm w).
  destruct (m w) as [[a | e] w1]; simpl in Hm.
  - destruct Hm as (Hv & Ha & Hc & _ & Hok).
    specialize (Hk a w1).
    destruct (k a w1) as [r w2]; simpl in Hk |- *.
    destruct Hk as (Hv2 & Ha2 & Hc2 & Hl2 & Hr2).
    rewrite Hv in Hv2, Hl2, Hr2.
    repeat split; try congruence; try lia.
    + intros n H1 H2.
      destruct (Nat.lt_ge_cases n (calls w1)); [apply Hok | apply Hl2]; lia.
    + destruct r as [b | e].
      * intros n H1 H2.
        destruct (Nat.lt_ge_cases n (calls w1));
          [apply Hok | apply Hr2]; lia.
      * destruct Hr2 as [H1 H2]. split; [lia | exact H2].
  - exact Hm.
Qed.

Lemma orderly_if {A : Type} (b : bool) (m1 m2 : M A) :
  orderly m1 -> orderly m2 -> orderly (if b then m1 else m2).
Proof. destruct b; auto. Qed.

Lemma orderly_for_each {A : Type} (l : list A) (body : A -> M unit) :
  (forall x, orderly (body x)) -> orderly (for_each l body).
Proof.
  intros H. induction l as [| x l IH]; simpl.
  - apply orderly_ret.
  - apply orderly_bind; auto.
Qed.

End ExceptionHandler.

(** Discharges [orderly] for a body built from the primitives. *)
Ltac orderly_body :=
  repeat first
    [ apply orderly_bind; [| intros ?]
    | apply orderly_if
    | apply orderly_for_each; intros ?
    | apply orderly_ret
    | apply orderly_request_refresh
    | apply orderly_log_error
    | apply orderly_log_info
    | apply orderly_vendor_call ].

Section NoExceptionPropagates.
Import Data.

(** Every command handler is a body under the decorator, and its body
    keeps to the order of its vendor calls. *)
Lemma dispatch_decorated (c : Command) (d : Device) :
  decorated (dispatch c d).
Proof.
  destruct c; cbn [dispatch];
    (eexists; split; [reflexivity |]);
    unfold remote, launch, tune, roku_search;
    try (unfold Observed.matching_app);
    orderly_body.
  - destruct (find _ (apps d)); orderly_body.
Qed.

Lemma handler_on_vendor_error (func : M unit) (w : World) (e : Exn) :
  fst (func w) = Raise e ->
  vendor_error e ->
  roku_exception_handler func w =
  (Ok tt,
   if available (snd (func w))
   then emit (api_log e) (snd (func w))
   else snd (func w)).
Proof.
  unfold roku_exception_handler.
  destruct (func w) as [[a | e'] w']; simpl; intros [= ->] He.
  destruct e as [msg | msg | msg]; simpl in He; [| | contradiction];
    destruct (available w'); reflexivity.
Qed.

Lemma handler_on_return (func : M unit) (w : World) (a : unit) :
  fst (func w) = Ok a ->
  roku_exception_handler func w = (Ok tt, snd (func w)).
Proof.
  unfold roku_exception_handler.
  destruct (func w) as [[a' | e'] w']; simpl; intros [= ->]. reflexivity.
Qed.

(** C7: the decorator swallows both kinds of vendor error.  Applied to any
    body that raises a connection error or a generic vendor error, it
    returns normally, and it logs the error, once, exactly when the entity
    is available at that moment; it issues no vendor call of its own.  So
    every command handler, when the vendor client raises nothing but those
    two kinds, returns normally whatever fails, and after a call has
    failed it issues no further call: nothing is retried. *)
Theorem handler_swallows_vendor_errors :
  (forall (func : M unit) w e,
      fst (func w) = Raise e -> vendor_error e ->
      roku_exception_handler func w =
      (Ok tt,
       if available (snd (func w))
       then emit (api_log e) (snd (func w))
       else snd (func w))) /\
  (forall (func : M unit) w a,
      fst (func w) = Ok a ->
      roku_exception_handler func w = (Ok tt, snd (func w))) /\
  (forall c d w,
      vendor_errors_only w ->
      fst (dispatch c d w) = Ok tt /\
      (forall n, (calls w <= n)%nat ->
                 (S n < calls (snd (dispatch c d w)))%nat ->
                 vendor w n = None)).
Proof.
  split; [exact handler_on_vendor_error|].
  split; [exact handler_on_return|].
  intros c d w Hw.
  destruct (dispatch_decorated c d) as (func & -> & Hf).
  destruct (Hf w) as (Hv & Ha & Hc & Hl & Hr).
  destruct (fst (func w)) as [a | e] eqn:E.
  - rewrite (handler_on_return func w a E). simpl. auto.
  - destruct Hr as [Hlt He].
    rewrite (handler_on_vendor_error func w e E (Hw _ _ He)).
    split; [reflexivity|].
    destruct (available (snd (func w))); simpl; exact Hl.
Qed.

End NoExceptionPropagates.

(** * Runs on sample inputs *)

Section Examples.
Import Data.

(** Netflix and Hulu installed: Home, Hulu, Netflix. *)
Example source_list_watching :
  MediaPlayer.source_list Sample.watching = ["Home"; "Hulu"; "Netflix"].
Proof. reflexivity. Qed.

(** The comparison is by character code: upper case sorts before lower
    case. *)
Example sorted_is_case_sensitive :
  sorted ["netflix"; "Hulu"; "apple"; "Zoo"] =
  ["Hulu"; "Zoo"; "apple"; "netflix"].
Proof. reflexivity. Qed.

Example state_watching : MediaPlayer.state Sample.watching = Some "playing".
Proof. reflexivity. Qed.

Example split_comma_pieces : split_comma "a,,b," = ["a"; ""; "b"; ""].
Proof. reflexivity. Qed.

Example quote_escapes : quote "a b/c~d" = "a%20b%2Fc~d".
Proof. reflexivity. Qed.

(** The parts of a pair are trimmed, and a third part is ignored. *)
Example play_media_app_trims :
  events
    (MediaPlayer.async_play_media Sample.watching "app" "12, A B ,x")
    Sample.quiet =
  [LogInfo "Launching Roku app %s with deep link %s" ["12"; "A B"];
   Launch "12" (Some [("contentId", "A%20B")]);
   RequestRefresh].
Proof. reflexivity. Qed.

(** [strip] removes ASCII and other Unicode white space at both ends, and
    nothing inside the text or of another character's bytes. *)
Example strip_ascii :
  strip (String "009" " a b " ++ String "010" "") = "a b".
Proof. vm_compute. reflexivity. Qed.

Example strip_no_break_space :
  strip (Sample.nbsp ++ "ABC123") = "ABC123".
Proof. vm_compute. reflexivity. Qed.

Example strip_em_space : strip ("12" ++ Sample.em_space) = "12".
Proof. vm_compute. reflexivity. Qed.

Example strip_keeps_inner_space :
  strip (" a" ++ Sample.em_space ++ "b ") = ("a" ++ Sample.em_space ++ "b")%string.
Proof. vm_compute. reflexivity. Qed.

(** The last byte of a capital A with grave, C3 80, is no white space,
    though 80 is the last byte of the en quad. *)
Example strip_keeps_other_characters :
  strip (String (ascii_of_N 195) (String (ascii_of_N 128) ""))
  = String (ascii_of_N 195) (String (ascii_of_N 128) "").
Proof. vm_compute. reflexivity. Qed.

Example play_media_app_strips_unicode :
  vendor_calls
    (events
       (MediaPlayer.async_play_media Sample.watching "app"
          ("12" ++ Sample.em_space ++ "," ++ Sample.nbsp ++ "ABC123"))
       Sample.quiet) =
  [Launch "12" (Some [("contentId", "ABC123")])].
Proof. vm_compute. reflexivity. Qed.

(** The encodings are the UTF-8 bytes of the code points. *)
Example utf8_of_white_space :
  utf8 32 = [ascii_of_N 32] /\
  utf8 160 = [ascii_of_N 194; ascii_of_N 160] /\
  utf8 8195 = [ascii_of_N 226; ascii_of_N 128; ascii_of_N 131] /\
  utf8 12288 = [ascii_of_N 227; ascii_of_N 128; ascii_of_N 128].
Proof. vm_compute. auto. Qed.

(** A text that ends in an em space, or starts with a no-break space, is
    not trimmed. *)
Example untrimmed_unicode :
  ~ trimmed ("12" ++ Sample.em_space) /\ ~ trimmed (Sample.nbsp ++ "A").
Proof.
  split; intros [H1 H2]; vm_compute in H1, H2; discriminate.
Qed.

(** A channel is tuned to, never launched. *)
Example play_media_channel :
  events (MediaPlayer.async_play_media Sample.watching "channel" "14.1")
    Sample.quiet =
  [LogInfo "Switching to Roku TV channel %s" ["14.1"];
   Tune "14.1";
   RequestRefresh].
Proof. reflexivity. Qed.

(** A failed call ends the handler: the error is logged and the refresh is
    not requested. *)
Example turn_on_unreachable :
  MediaPlayer.async_turn_on Sample.watching Sample.unreachable =
  (Ok tt,
   mkWorld
     [Remote "poweron";
      LogError "Error communicating with API: %s" ["timeout"]]
     1 (vendor Sample.unreachable) true).
Proof. reflexivity. Qed.

(** The decorator has no clause for other exceptions: they propagate. *)
Lemma handler_lets_others_through (func : M unit) (w : World) (msg : string) :
  fst (func w) = Raise (OtherException msg) ->
  roku_exception_handler func w = (Raise (OtherException msg), snd (func w)).
Proof.
  unfold roku_exception_handler.
  destruct (func w) as [[a | e] w']; simpl; intros [= ->]. reflexivity.
Qed.

End Examples.

(** * The theorems at sample inputs *)

Section Witnesses.
Import Data.

Lemma quiet_responsive : responsive Sample.quiet.
Proof. intros n. reflexivity. Defined.

Lemma unreachable_vendor_errors_only : vendor_errors_only Sample.unreachable.
Proof.
  intros n e. destruct n as [| n]; simpl; intros H.
  - injection H as <-. exact I.
  - discriminate H.
Defined.

(** Two passes over up, up, select: six key sends, then the refresh. *)
Lemma send_command_two_passes :
  events
    (RokuRemote.async_send_command Sample.watching ["up"; "up"; "select"] 2)
    Sample.quiet =
  [Remote "up"; Remote "up"; Remote "select";
   Remote "up"; Remote "up"; Remote "select"; RequestRefresh] /\
  refresh_requests
    (events
       (RokuRemote.async_send_command Sample.watching
          ["up"; "up"; "select"] 2)
       Sample.quiet) = 1%nat.
Proof.
  destruct (send_command_repeats_then_refreshes Sample.watching
              ["up"; "up"; "select"] 2 Sample.quiet
              ltac:(lia) quiet_responsive) as (_ & E & _ & R).
  split; [exact E | exact R].
Defined.

(** "Home" with no app of that name: the home key, then the refresh. *)
Lemma select_source_home_sample :
  events (MediaPlayer.async_select_source Sample.watching "Home")
    Sample.quiet = [Remote "home"; RequestRefresh] /\
  refresh_requests
    (events (MediaPlayer.async_select_source Sample.watching "Home")
       Sample.quiet) = 1%nat.
Proof.
  destruct (select_source_home_key_then_matching_app Sample.watching
              "Home" Sample.quiet quiet_responsive) as (_ & E & R & _).
  split; [exact E | exact R].
Defined.


(** The film has a duration and a position; the live one has neither. *)
Lemma media_progress_sample :
  MediaPlayer.media_duration Sample.watching = Some 5400%Z /\
  MediaPlayer.media_position Sample.watching = Some 120%Z /\
  MediaPlayer.media_duration Sample.watching_live = None /\
  MediaPlayer.media_position Sample.watching_live = None.
Proof.
  destruct (media_progress_present_iff_trackable Sample.watching)
    as (Hp & _).
  destruct (media_progress_present_iff_trackable Sample.watching_live)
    as (_ & _ & Hl & _).
  destruct Hp as (m & Hm & Hd & Hq & _).
  { exists Sample.movie. repeat split. }
  injection Hm as <-.
  destruct (Hl Sample.live_show eq_refl eq_refl) as (Ld & Lq & _).
  repeat split; assumption.
Defined.

(** "12,ABC123" launches app 12 with the content id ABC123. *)
Lemma play_media_app_sample :
  vendor_calls
    (events
       (MediaPlayer.async_play_media Sample.watching MEDIA_TYPE_APP
          "12,ABC123")
       Sample.quiet) =
  [Launch "12" (Some [("contentId", "ABC123")])].
Proof.
  destruct (play_media_app_launches Sample.watching "12,ABC123"
              Sample.quiet) as (H & _).
  exact (H "12" "ABC123" eq_refl eq_refl eq_refl).
Defined.

(** A media type "music" is logged and dropped. *)
Lemma play_media_music_sample :
  events (MediaPlayer.async_play_media Sample.watching "music" "12")
    Sample.unreachable =
  [LogError "Invalid media type %s. Only %s and %s are supported"
     ["music"; "app"; "channel"]] /\
  fst (MediaPlayer.async_play_media Sample.watching "music" "12"
         Sample.unreachable) = Ok tt.
Proof.
  destruct (play_media_unsupported_is_noop Sample.watching "music" "12"
              Sample.unreachable)
    as (R & E & _); [discriminate | discriminate | discriminate |].
  split; [exact E | exact R].
Defined.

(** Turning on an unreachable player returns normally. *)
Lemma turn_on_unreachable_sample :
  fst (dispatch turn_on Sample.watching Sample.unreachable) = Ok tt.
Proof.
  destruct handler_swallows_vendor_errors as (_ & _ & H).
  destruct (H turn_on Sample.watching Sample.unreachable
              unreachable_vendor_errors_only) as (R & _).
  exact R.
Defined.

(** On the tuner input the program's title is the media title; with
    Netflix running there is none. *)
Lemma media_title_sample :
  MediaPlayer.media_title Sample.tuned = Some "Evening News" /\
  MediaPlayer.media_title Sample.watching = None.
Proof.
  destruct (media_title_only_for_tuner Sample.tuned) as (Ht & _).
  destruct (media_title_only_for_tuner Sample.watching) as (_ & Hn & _).
  split.
  - apply Ht. exists Sample.tuner, Sample.news. repeat split.
  - apply (Hn Sample.netflix eq_refl). discriminate.
Defined.

End Witnesses.

(** * Further properties of the state derivation *)

(** Settles the three parts of the statement on the state words once the
    word is known. *)
Ltac known_word :=
  split; [simpl; auto 10 | split];
  first [ intros [? | ?]; discriminate
        | intros _; split; discriminate
        | intros ?; discriminate
        | intros _; reflexivity ].

Section DerivedFields.
Import Data.
Variable d : Device.

(** X1: the remote entity is off exactly when the media player's state is
    "standby": both read the snapshot's standby flag. *)
Theorem remote_off_iff_standby :
  RokuRemote.is_on d = false <-> MediaPlayer.state d = Some "standby".
Proof.
  unfold RokuRemote.is_on, MediaPlayer.state.
  destruct (standby (Data.state d)); simpl.
  - split; reflexivity.
  - split; [discriminate|].
    destruct (app d) as [a|]; [|discriminate].
    destruct ((name a =? "Power Saver") || screensaver a); [discriminate|].
    destruct (name a =? "Roku"); [discriminate|].
    destruct (media d) as [m|].
    + destruct (paused m); discriminate.
    + destruct (truthy (name a)); discriminate.
Qed.

(** X2: the state is unknown or one of the six state words, never another
    string; "paused" and "playing" are reported only with media present and
    an app running, and "on" only without media. *)
Theorem state_is_a_known_word (s : string) :
  MediaPlayer.state d = Some s ->
  In s ["standby"; "idle"; "home"; "paused"; "playing"; "on"] /\
  (s = "paused" \/ s = "playing" -> media d <> None /\ app d <> None) /\
  (s = "on" -> media d = None).
Proof.
  unfold MediaPlayer.state.
  destruct (standby (Data.state d)); [intros [= <-]; known_word|].
  destruct (app d) as [a|]; [|intros [=]].
  destruct ((name a =? "Power Saver") || screensaver a);
    [intros [= <-]; known_word|].
  destruct (name a =? "Roku"); [intros [= <-]; known_word|].
  destruct (media d) as [m|].
  - destruct (paused m); intros [= <-]; known_word.
  - destruct (truthy (name a)); [|intros [=]].
    intros [= <-]; known_word.
Qed.

(** X3: when the content type is "channel" a channel is present, the
    channel display name is reported (the name with the number in brackets,
    or the bare number) and the media title is the channel's program title;
    and a media title is never reported without a channel display name. *)
Theorem channel_fields_go_together :
  (MediaPlayer.media_content_type d = Some "channel" ->
   exists ch,
     channel d = Some ch /\
     MediaPlayer.media_channel d =
       Some match channel_name ch with
            | Some n => (n ++ " (" ++ number ch ++ ")")%string
            | None => number ch
            end /\
     MediaPlayer.media_title d = program_title ch) /\
  (forall t, MediaPlayer.media_title d = Some t ->
             MediaPlayer.media_channel d <> None).
Proof.
  unfold MediaPlayer.media_content_type, MediaPlayer.media_channel,
    MediaPlayer.media_title, MediaPlayer.app_id_is_not, MediaPlayer.app_id,
    MediaPlayer.app_name.
  split.
  - destruct (app d) as [a|]; [|discriminate].
    destruct (in2 (name a) "Power Saver" "Roku"); [discriminate|].
    destruct (channel d) as [ch|]; [|discriminate].
    destruct (Data.app_id a =? "tvinput.dtv"); [|discriminate].
    intros _. exists ch. simpl.
    repeat split.
    + destruct (channel_name ch); reflexivity.
    + destruct (program_title ch); reflexivity.
  - intros t.
    destruct (app d) as [a|]; [|discriminate].
    destruct (Data.app_id a =? "tvinput.dtv"); [|discriminate]. simpl.
    destruct (channel d) as [ch|]; [|discriminate].
    intros _. destruct (channel_name ch); discriminate.
Qed.

(** X4: an image URL is reported exactly when a content type is, and it is
    then the icon URL the vendor client builds for the active app's id. *)
Theorem image_iff_content_type (app_icon_url : string -> string) :
  (MediaPlayer.media_image_url app_icon_url d = None <->
   MediaPlayer.media_content_type d = None) /\
  (forall u, MediaPlayer.media_image_url app_icon_url d = Some u ->
             exists a, app d = Some a /\ u = app_icon_url (Data.app_id a)).
Proof.
  unfold MediaPlayer.media_image_url, MediaPlayer.media_content_type,
    MediaPlayer.app_id, MediaPlayer.app_name.
  destruct (app d) as [a|].
  - destruct (in2 (name a) "Power Saver" "Roku").
    + split; [split; reflexivity | discriminate].
    + split.
      * split; [discriminate|].
        destruct (channel d); [destruct (Data.app_id a =? "tvinput.dtv")|];
          discriminate.
      * intros u [= <-]. exists a. auto.
  - split; [split; reflexivity | discriminate].
Qed.

(** X5: on the home screen (state "home") neither a content type nor an
    image URL is reported, and the current source is the launcher, "Roku". *)
Theorem home_has_no_content (app_icon_url : string -> string) :
  MediaPlayer.state d = Some "home" ->
  MediaPlayer.media_content_type d = None /\
  MediaPlayer.media_image_url app_icon_url d = None /\
  MediaPlayer.source d = Some "Roku".
Proof.
  unfold MediaPlayer.state, MediaPlayer.media_content_type,
    MediaPlayer.media_image_url, MediaPlayer.source, MediaPlayer.app_id,
    MediaPlayer.app_name, in2.
  destruct (standby (Data.state d)); [discriminate|].
  destruct (app d) as [a|]; [|discriminate].
  destruct ((name a =? "Power Saver") || screensaver a); [discriminate|].
  destruct (name a =? "Roku") eqn:E.
  - intros _. apply String.eqb_eq in E. rewrite E. simpl. auto.
  - destruct (media d) as [m|]; [destruct (paused m) | destruct (truthy _)];
      discriminate.
Qed.

Lemma source_list_in (s : string) :
  In s (MediaPlayer.source_list d) <->
  s = "Home" \/ exists a, In a (apps d) /\ name a = s.
Proof.
  unfold MediaPlayer.source_list. simpl. split.
  - intros [<- | H]; [left; reflexivity|].
    right. apply (Permutation_in _ (Permutation_sym (sorted_perm _))) in H.
    apply in_map_iff in H. destruct H as (a & Ha & Hin). eauto.
  - intros [-> | (a & Hin & <-)]; [left; reflexivity|].
    right. apply (Permutation_in _ (sorted_perm _)).
    apply in_map. exact Hin.
Qed.

(** X6: the source list offers "Home" and the names of the installed apps
    and nothing else, one entry per installed app beside "Home". *)
Theorem source_list_entries :
  (forall s, In s (MediaPlayer.source_list d) <->
             s = "Home" \/ exists a, In a (apps d) /\ name a = s) /\
  List.length (MediaPlayer.source_list d) = S (List.length (apps d)).
Proof.
  split; [exact source_list_in|].
  unfold MediaPlayer.source_list. simpl. f_equal.
  rewrite <- (Permutation_length (sorted_perm _)). apply length_map.
Qed.

(** X7: when the active app is one of the installed apps, the current
    source is one of the sources offered. *)
Theorem current_source_is_offered (a : Application) :
  app d = Some a ->
  In a (apps d) ->
  exists s, MediaPlayer.source d = Some s /\
            In s (MediaPlayer.source_list d).
Proof.
  intros Ha Hin. exists (name a). unfold MediaPlayer.source. rewrite Ha.
  split; [reflexivity|].
  apply source_list_in. right. eauto.
Qed.

End DerivedFields.

(** * Further properties of the command handlers *)

(** Reduces the events of a handler in any world, by cases on what the
    vendor client answers and on the availability. *)
Ltac run_any w :=
  unfold events;
  cbv [roku_exception_handler bind remote launch tune roku_search
       vendor_call async_request_refresh log_error log_info ret emit];
  cbn [trace calls vendor available];
  repeat (match goal with
          | |- context [match vendor w ?n with _ => _ end] =>
            destruct (vendor w n) as [[? | ? | ?] |]
          end;
          cbn [trace calls vendor available]);
  try destruct (available w);
  cbn [trace calls vendor available snd fst];
  rewrite <- ?app_assoc; cbn [app];
  rewrite ?skipn_length_app, ?skipn_all.

Section PlaybackGuards.
Import Data.

Lemma state_not_in_standby (d : Device) (l : list string) :
  standby (Data.state d) = true ->
  MediaPlayer.state_not_in d (STATE_STANDBY :: l) = false.
Proof.
  intros H. unfold MediaPlayer.state_not_in, MediaPlayer.state.
  rewrite H. reflexivity.
Qed.

(** X8: in standby, pause, play and the play/pause toggle do nothing at
    all: no vendor call, no refresh request, no log line, in any world. *)
Theorem standby_silences_playback (d : Device) (w : World) :
  standby (Data.state d) = true ->
  MediaPlayer.async_media_pause d w = (Ok tt, w) /\
  MediaPlayer.async_media_play d w = (Ok tt, w) /\
  MediaPlayer.async_media_play_pause d w = (Ok tt, w).
Proof.
  intros H.
  unfold MediaPlayer.async_media_pause, MediaPlayer.async_media_play,
    MediaPlayer.async_media_play_pause.
  rewrite !(state_not_in_standby d _ H). repeat split.
Qed.

(** X9: the play key is a toggle, and the guards keep it from toggling the
    wrong way: while playing, play does nothing and pause sends the key;
    while paused, pause does nothing and play sends the key; in any state
    but standby at least one of the two sends it. *)
Theorem play_and_pause_follow_state (d : Device) (w : World) :
  (MediaPlayer.state d = Some "playing" ->
   MediaPlayer.async_media_play d w = (Ok tt, w) /\
   vendor_calls (events (MediaPlayer.async_media_pause d) w)
   = [Remote "play"]) /\
  (MediaPlayer.state d = Some "paused" ->
   MediaPlayer.async_media_pause d w = (Ok tt, w) /\
   vendor_calls (events (MediaPlayer.async_media_play d) w)
   = [Remote "play"]) /\
  (MediaPlayer.state d <> Some "standby" ->
   vendor_calls (events (MediaPlayer.async_media_pause d) w)
   = [Remote "play"] \/
   vendor_calls (events (MediaPlayer.async_media_play d) w)
   = [Remote "play"]).
Proof.
  assert (Hsend : forall b : bool,
             b = true ->
             vendor_calls
               (events
                  (roku_exception_handler
                     (if b then remote "play" ;; async_request_refresh
                      else ret tt)) w) = [Remote "play"]).
  { intros b ->. run_any w; reflexivity. }
  unfold MediaPlayer.async_media_pause, MediaPlayer.async_media_play.
  split; [|split].
  - intros Hs. split.
    + unfold MediaPlayer.state_not_in. rewrite Hs. reflexivity.
    + apply Hsend. unfold MediaPlayer.state_not_in. rewrite Hs. reflexivity.
  - intros Hs. split.
    + unfold MediaPlayer.state_not_in. rewrite Hs. reflexivity.
    + apply Hsend. unfold MediaPlayer.state_not_in. rewrite Hs. reflexivity.
  - intros Hs.
    destruct (MediaPlayer.state_not_in d [STATE_STANDBY; STATE_PAUSED]) eqn:E.
    + left. exact (Hsend true eq_refl).
    + right. apply Hsend.
      unfold MediaPlayer.state_not_in in *.
      destruct (MediaPlayer.state d) as [s|]; [|reflexivity].
      simpl in E |- *.
      destruct (s =? STATE_STANDBY) eqn:E1.
      { apply String.eqb_eq in E1. subst s. contradiction Hs. reflexivity. }
      destruct (s =? STATE_PAUSED) eqn:E2; [|discriminate].
      apply String.eqb_eq in E2. subst s. reflexivity.
Qed.

End PlaybackGuards.

Section SelectSourceAnyWorld.
Import Data.

Lemma matching_app_some (d : Device) (source : string) (a : Application) :
  Observed.matching_app d source = Some a ->
  In a (apps d) /\ (name a = source \/ Data.app_id a = source).
Proof.
  unfold Observed.matching_app. intros H.
  apply find_some in H. destruct H as [Hin Hm]. split; [exact Hin|].
  unfold in2 in Hm. apply orb_true_iff in Hm.
  destruct Hm as [Hm | Hm]; apply String.eqb_eq in Hm; auto.
Qed.

Lemma matching_app_none (d : Device) (source : string) :
  Observed.matching_app d source = None ->
  forall a, In a (apps d) -> name a <> source /\ Data.app_id a <> source.
Proof.
  unfold Observed.matching_app. intros H a Hin.
  pose proof (find_none _ _ H a Hin) as Hm.
  unfold in2 in Hm. apply orb_false_iff in Hm. destruct Hm as [H1 H2].
  apply String.eqb_neq in H1, H2. split; congruence.
Qed.

(** The vendor calls of [select_source] in any world: the home key and the
    launch, or the home key alone when that call fails. *)
Lemma select_source_calls (d : Device) (source : string) (w : World) :
  let made :=
    vendor_calls (events (MediaPlayer.async_select_source d source) w) in
  made =
    (if source =? "Home" then [Remote "home"] else [])
    ++ match Observed.matching_app d source with
       | Some a => [Launch (Data.app_id a) None]
       | None => []
       end
  \/ (source = "Home" /\ made = [Remote "home"]).
Proof.
  unfold MediaPlayer.async_select_source, Observed.matching_app.
  destruct (source =? "Home") eqn:Eh;
    destruct (find _ (apps d)) as [a|];
    try (apply String.eqb_eq in Eh);
    run_any w; auto.
Qed.

(** X10: every source the source list offers can be selected: selecting it
    issues a vendor call, in any world, and the first one is the home key
    for "Home" and otherwise the launch, by its id and with no parameters,
    of an installed app whose name or id is the source. *)
Theorem offered_source_is_acted_on (d : Device) (s : string) (w : World) :
  In s (MediaPlayer.source_list d) ->
  exists ev rest,
    vendor_calls (events (MediaPlayer.async_select_source d s) w)
    = ev :: rest /\
    ((s = "Home" /\ ev = Remote "home") \/
     (exists a, In a (apps d) /\ (name a = s \/ Data.app_id a = s) /\
                ev = Launch (Data.app_id a) None)).
Proof.
  intros Hin. apply source_list_in in Hin.
  pose proof (select_source_calls d s w) as Hc. cbv zeta in Hc.
  destruct (s =? "Home") eqn:Eh.
  - apply String.eqb_eq in Eh.
    destruct Hc as [Hc | [_ Hc]]; rewrite Hc; simpl;
      (do 2 eexists; split; [reflexivity | left; auto]).
  - pose proof Eh as Eh'. apply String.eqb_neq in Eh'.
    destruct Hc as [Hc | [Hc _]]; [|contradiction].
    destruct Hin as [-> | (a & Ha & Hn)]; [contradiction Eh'; reflexivity|].
    destruct (Observed.matching_app d s) as [a'|] eqn:Em.
    + apply matching_app_some in Em. destruct Em as [Hin' Hm].
      rewrite Hc. simpl. exists (Launch (Data.app_id a') None), [].
      split; [reflexivity|]. right. eauto.
    + destruct (matching_app_none d s Em a Ha) as [Hx _]. contradiction.
Qed.

(** X11: [select_source] launches nothing but an installed app whose name or
    id is the source, and never with parameters; a source that is neither
    "Home" nor the name or id of an installed app leads to the refresh
    request alone. *)
Theorem select_source_launches_only_matches (d : Device) (source : string)
  (w : World) :
  (forall i p,
      In (Launch i p) (events (MediaPlayer.async_select_source d source) w) ->
      p = None /\
      exists a, In a (apps d) /\ Data.app_id a = i /\
                (name a = source \/ Data.app_id a = source)) /\
  (source <> "Home" ->
   (forall a, In a (apps d) -> name a <> source /\ Data.app_id a <> source) ->
   MediaPlayer.async_select_source d source w
   = (Ok tt, emit RequestRefresh w)).
Proof.
  split.
  - intros i p Hin.
    assert (Hv : In (Launch i p)
                   (vendor_calls
                      (events (MediaPlayer.async_select_source d source) w)))
      by (apply filter_In; split; [exact Hin | reflexivity]).
    pose proof (select_source_calls d source w) as Hc. cbv zeta in Hc.
    destruct Hc as [Hc | [_ Hc]]; rewrite Hc in Hv.
    + apply in_app_or in Hv. destruct Hv as [Hv | Hv].
      * destruct (source =? "Home"); simpl in Hv;
          [destruct Hv as [Hv | []]; discriminate | contradiction].
      * destruct (Observed.matching_app d source) as [a|] eqn:Em;
          [|contradiction].
        destruct Hv as [Hv | []]. injection Hv as <- <-.
        apply matching_app_some in Em. destruct Em. split; eauto.
    + destruct Hv as [Hv | []]. discriminate.
  - intros Hs Hn. apply String.eqb_neq in Hs.
    unfold MediaPlayer.async_select_source. rewrite Hs.
    destruct (find _ (apps d)) as [a|] eqn:Em.
    + apply (matching_app_some d source a) in Em.
      destruct Em as [Hin [Hm | Hm]]; destruct (Hn a Hin); contradiction.
    + reflexivity.
Qed.

End SelectSourceAnyWorld.

Section PlayMediaOtherTypes.
Import Data.

(** X12: [play_media] of type channel tunes to the given channel and never
    launches an app: its one vendor call is the tune, in any world. *)
Theorem play_media_channel_tunes (d : Device) (media_id : string)
  (w : World) :
  vendor_calls
    (events (MediaPlayer.async_play_media d MEDIA_TYPE_CHANNEL media_id) w)
  = [Tune media_id].
Proof.
  unfold MediaPlayer.async_play_media.
  change (existsb (String.eqb MEDIA_TYPE_CHANNEL) _) with true.
  change (MEDIA_TYPE_CHANNEL =? MEDIA_TYPE_APP) with false.
  change (MEDIA_TYPE_CHANNEL =? FORMAT_CONTENT_TYPE HLS_PROVIDER) with false.
  change (MEDIA_TYPE_CHANNEL =? MEDIA_TYPE_CHANNEL) with true.
  cbn [negb]. run_any w; reflexivity.
Qed.

(** X13: [play_media] of the side-loaded stream type launches the developer
    app "dev" with the whole media id, URL-escaped, as the deep-link content
    id; a comma in the media id is not a separator here. *)
Theorem play_media_stream_launches_dev (d : Device) (media_id : string)
  (w : World) :
  vendor_calls
    (events
       (MediaPlayer.async_play_media d (FORMAT_CONTENT_TYPE HLS_PROVIDER)
          media_id) w)
  = [Launch "dev" (Some [("contentId", quote media_id)])].
Proof.
  unfold MediaPlayer.async_play_media.
  change (existsb (String.eqb (FORMAT_CONTENT_TYPE HLS_PROVIDER)) _)
    with true.
  change (FORMAT_CONTENT_TYPE HLS_PROVIDER =? MEDIA_TYPE_APP) with false.
  change (FORMAT_CONTENT_TYPE HLS_PROVIDER =? FORMAT_CONTENT_TYPE HLS_PROVIDER)
    with true.
  cbn [negb]. run_any w; reflexivity.
Qed.

End PlayMediaOtherTypes.

Section Escaping.

Lemma all_chars_app (P : ascii -> bool) (a b : string) :
  all_chars P (a ++ b)%string = all_chars P a && all_chars P b.
Proof.
  induction a as [| c a IH]; simpl; [reflexivity|].
  rewrite IH, andb_assoc. reflexivity.
Qed.

Lemma quote_byte_url_safe (c : ascii) :
  all_chars url_safe (quote_byte c) = true.
Proof. destruct c as [[] [] [] [] [] [] [] []]; reflexivity. Qed.

Lemma quote_url_safe (s : string) : all_chars url_safe (quote s) = true.
Proof.
  induction s as [| c s IH]; simpl; [reflexivity|].
  rewrite all_chars_app, quote_byte_url_safe, IH. reflexivity.
Qed.

Lemma unquote_quote_byte (c : ascii) (s : string) :
  unquote (quote_byte c ++ s)%string = String c (unquote s).
Proof. destruct c as [[] [] [] [] [] [] [] []]; reflexivity. Qed.

Lemma unquote_quote (s : string) : unquote (quote s) = s.
Proof.
  induction s as [| c s IH]; simpl; [reflexivity|].
  rewrite unquote_quote_byte, IH. reflexivity.
Qed.

Lemma quote_unreserved (s : string) :
  all_chars unreserved s = true -> quote s = s.
Proof.
  induction s as [| c s IH]; simpl; [reflexivity|].
  intros H. apply andb_true_iff in H. destruct H as [Hc Hs].
  unfold quote_byte. rewrite Hc, (IH Hs). reflexivity.
Qed.

End Escaping.

Section Trimming.

Lemma starts_with_length (p l : list ascii) :
  starts_with p l = true -> (List.length p <= List.length l)%nat.
Proof.
  revert l. induction p as [| a p IH]; intros l H; simpl; [lia|].
  destruct l as [| b l]; [discriminate|]. simpl in H |- *.
  apply andb_true_iff in H. destruct H as [_ H].
  specialize (IH l H). lia.
Qed.

Lemma starts_with_app (p l u : list ascii) :
  starts_with p l = true -> starts_with p (l ++ u) = true.
Proof.
  revert l. induction p as [| a p IH]; intros l H; [reflexivity|].
  destruct l as [| b l]; [discriminate|]. simpl in H |- *.
  apply andb_true_iff in H. destruct H as [Hab H].
  rewrite Hab, (IH l H). reflexivity.
Qed.

Lemma space_encodings_nonempty (e : list ascii) :
  In e space_encodings \/ In e space_encodings_reversed -> e <> [].
Proof.
  assert (H : forallb (fun e => negb (List.length e =? 0)%nat)
                (space_encodings ++ space_encodings_reversed) = true)
    by (vm_compute; reflexivity).
  rewrite forallb_forall in H.
  intros Hin -> . apply in_or_app in Hin. specialize (H [] Hin).
  discriminate H.
Qed.

Lemma space_encodings_nonempty_forward (e : list ascii) :
  In e space_encodings -> e <> [].
Proof. intros H. apply space_encodings_nonempty. left. exact H. Qed.

Lemma space_encodings_nonempty_backward (e : list ascii) :
  In e space_encodings_reversed -> e <> [].
Proof. intros H. apply space_encodings_nonempty. right. exact H. Qed.

Section DroppingSpaces.

Variable encodings : list (list ascii).
Hypothesis nonempty : forall e, In e encodings -> e <> [].

Lemma drop_space_some (l l' : list ascii) :
  drop_space encodings l = Some l' ->
  exists e, e <> [] /\ starts_with e l = true /\ l = firstn (List.length e) l ++ l'.
Proof.
  unfold drop_space.
  destruct (find _ encodings) as [e|] eqn:E; [|discriminate].
  intros [= <-]. apply find_some in E. destruct E as [Hin Hs].
  exists e. split; [apply nonempty, Hin|]. split; [exact Hs|].
  symmetry. apply firstn_skipn.
Qed.

Lemma drop_space_shorter (l l' : list ascii) :
  drop_space encodings l = Some l' ->
  (List.length l' < List.length l)%nat.
Proof.
  intros H. destruct (drop_space_some l l' H) as (e & He & Hs & Hl).
  apply starts_with_length in Hs.
  assert (List.length e <> 0)%nat by (destruct e; [congruence | discriminate]).
  apply (f_equal (@List.length ascii)) in Hl.
  rewrite length_app, length_firstn in Hl. lia.
Qed.

(** With fuel for every byte, no white space is left at the beginning. *)
Lemma drop_spaces_done (fuel : nat) (l : list ascii) :
  (List.length l <= fuel)%nat ->
  drop_space encodings (drop_spaces encodings fuel l) = None.
Proof.
  revert l. induction fuel as [| fuel IH]; intros l H; simpl.
  - destruct (drop_space encodings l) as [l'|] eqn:E; [|reflexivity].
    apply drop_space_shorter in E. lia.
  - destruct (drop_space encodings l) as [l'|] eqn:E; [|exact E].
    apply IH. apply drop_space_shorter in E. lia.
Qed.

(** What is left is the end of the text. *)
Lemma drop_spaces_suffix (fuel : nat) (l : list ascii) :
  exists p, l = p ++ drop_spaces encodings fuel l.
Proof.
  revert l. induction fuel as [| fuel IH]; intros l; simpl.
  - exists []. reflexivity.
  - destruct (drop_space encodings l) as [l'|] eqn:E.
    + destruct (drop_space_some l l' E) as (e & _ & _ & Hl).
      destruct (IH l') as (p & Hp).
      exists (firstn (List.length e) l ++ p).
      rewrite <- app_assoc, <- Hp. exact Hl.
    + exists []. reflexivity.
Qed.

(** A text that does not begin with white space has no beginning that
    does. *)
Lemma drop_space_none_prefix (r u : list ascii) :
  drop_space encodings (r ++ u) = None -> drop_space encodings r = None.
Proof.
  unfold drop_space. intros H.
  destruct (find (fun e => starts_with e r) encodings) as [e|] eqn:E;
    [|reflexivity].
  apply find_some in E. destruct E as [Hin Hs].
  destruct (find (fun e => starts_with e (r ++ u)) encodings) eqn:E';
    [discriminate|].
  pose proof (find_none _ _ E' e Hin) as Hn. simpl in Hn.
  rewrite (starts_with_app e r u Hs) in Hn. discriminate.
Qed.

End DroppingSpaces.

Lemma mem_char_in (x : ascii) (s : string) :
  mem_char x s = true <-> In x (list_ascii_of_string s).
Proof.
  induction s as [| a s IH]; simpl; [split; [discriminate | contradiction]|].
  rewrite orb_true_iff, IH, Ascii.eqb_eq. reflexivity.
Qed.

(** The bytes of [strip s]: the bytes of [s] between what is dropped at the
    beginning and what is dropped at the end. *)
Lemma strip_bytes (s : string) :
  exists before after,
    list_ascii_of_string s
    = before ++ list_ascii_of_string (strip s) ++ after /\
    drop_space space_encodings (list_ascii_of_string (strip s) ++ after)
    = None /\
    drop_space space_encodings_reversed
      (rev (list_ascii_of_string (strip s))) = None.
Proof.
  unfold strip, rstrip, lstrip. cbv zeta.
  rewrite !list_ascii_of_string_of_list_ascii.
  set (l := list_ascii_of_string s).
  set (t := drop_spaces space_encodings (List.length l) l).
  set (r := drop_spaces space_encodings_reversed (List.length (rev t))
              (rev t)).
  destruct (drop_spaces_suffix space_encodings
              space_encodings_nonempty_forward (List.length l) l)
    as (before & Hb).
  destruct (drop_spaces_suffix space_encodings_reversed
              space_encodings_nonempty_backward
              (List.length (rev t)) (rev t)) as (q & Hq).
  fold t in Hb. fold r in Hq.
  assert (Ht : t = rev r ++ rev q).
  { rewrite <- (rev_involutive t), Hq, rev_app_distr. reflexivity. }
  exists before, (rev q). rewrite rev_involutive, <- Ht.
  split; [exact Hb|]. split.
  - apply drop_spaces_done;
      [exact space_encodings_nonempty_forward | apply le_n].
  - apply drop_spaces_done;
      [exact space_encodings_nonempty_backward | apply le_n].
Qed.

Lemma strip_trimmed (s : string) : trimmed (strip s).
Proof.
  destruct (strip_bytes s) as (before & after & _ & Hs & He).
  split; [|exact He].
  apply (drop_space_none_prefix space_encodings _ after Hs).
Qed.

Lemma strip_no_char (x : ascii) (s : string) :
  mem_char x s = false -> mem_char x (strip s) = false.
Proof.
  intros H. destruct (mem_char x (strip s)) eqn:E; [|reflexivity].
  apply mem_char_in in E.
  destruct (strip_bytes s) as (before & after & Hb & _ & _).
  assert (Hin : In x (list_ascii_of_string s))
    by (rewrite Hb; apply in_or_app; right; apply in_or_app; left; exact E).
  apply mem_char_in in Hin. congruence.
Qed.

Lemma split_comma_not_nil (s : string) : split_comma s <> [].
Proof.
  destruct s as [| c s]; simpl; [discriminate|].
  destruct (Ascii.eqb c comma); [discriminate|].
  destruct (split_comma s); discriminate.
Qed.

(** No piece of a split contains a comma. *)
Lemma split_comma_no_comma (s : string) :
  Forall (fun p => mem_char comma p = false) (split_comma s).
Proof.
  induction s as [| c s IH]; simpl.
  - constructor; [reflexivity | constructor].
  - destruct (Ascii.eqb c comma) eqn:E.
    + constructor; [reflexivity | exact IH].
    + destruct (split_comma s) as [| p ps].
      * constructor; [simpl; rewrite E; reflexivity | constructor].
      * inversion IH as [| ? ? Hp Hps]; subst.
        constructor; [simpl; rewrite E, Hp; reflexivity | exact Hps].
Qed.

(** A text with a comma splits into two pieces at least. *)
Lemma split_comma_pair (s : string) :
  mem_char comma s = true ->
  exists p0 p1 ps, split_comma s = p0 :: p1 :: ps.
Proof.
  induction s as [| c s IH]; simpl; [discriminate|].
  destruct (Ascii.eqb c comma) eqn:E; simpl.
  - intros _. destruct (split_comma s) as [| p ps] eqn:Es.
    + destruct (split_comma_not_nil s Es).
    + eauto.
  - intros H. destruct (IH H) as (p0 & p1 & ps & ->). eauto.
Qed.

End Trimming.

Section DeepLinks.
Import Data.

(** The vendor calls of [play_media], by media type, in any world. *)
Lemma play_media_calls (d : Device) (media_type media_id : string)
  (w : World) :
  vendor_calls
    (events (MediaPlayer.async_play_media d media_type media_id) w) =
  if media_type =? MEDIA_TYPE_APP then
    match split_comma media_id with
    | p0 :: p1 :: _ =>
      [Launch (strip p0) (Some [("contentId", quote (strip p1))])]
    | _ => [Launch media_id None]
    end
  else if media_type =? FORMAT_CONTENT_TYPE HLS_PROVIDER then
    [Launch "dev" (Some [("contentId", quote media_id)])]
  else if media_type =? MEDIA_TYPE_CHANNEL then [Tune media_id]
  else [].
Proof.
  destruct (media_type =? MEDIA_TYPE_APP) eqn:Ea.
  { apply String.eqb_eq in Ea. subst media_type.
    apply play_media_app_calls. }
  unfold MediaPlayer.async_play_media. cbn [existsb]. rewrite Ea.
  destruct (media_type =? MEDIA_TYPE_CHANNEL) eqn:Ec;
    destruct (media_type =? FORMAT_CONTENT_TYPE HLS_PROVIDER) eqn:Eh;
    cbn [orb negb]; run_any w; reflexivity.
Qed.

Lemma launch_in_calls (i : string) (p : option (list (string * string)))
  (es : list Event) :
  In (Launch i p) es -> In (Launch i p) (vendor_calls es).
Proof. intros H. apply filter_In. split; [exact H | reflexivity]. Qed.

(** X14: the app id that [play_media] of type app launches never contains
    a comma, and when the media id has a comma it is the first part without
    the white space around it: it neither starts nor ends with white
    space. *)
Theorem launched_app_id_is_clean (d : Device) (media_id : string)
  (w : World) (i : string) (p : option (list (string * string))) :
  In (Launch i p)
    (events (MediaPlayer.async_play_media d MEDIA_TYPE_APP media_id) w) ->
  mem_char comma i = false /\
  (mem_char comma media_id = true -> trimmed i).
Proof.
  intros H. apply launch_in_calls in H.
  rewrite play_media_app_calls in H.
  destruct (mem_char comma media_id) eqn:Em.
  - destruct (split_comma_pair media_id Em) as (p0 & p1 & ps & Es).
    pose proof (split_comma_no_comma media_id) as Hp. rewrite Es in *.
    destruct H as [H | []]. injection H as <- _.
    inversion Hp as [| ? ? Hp0 _]; subst.
    split; [apply strip_no_char; exact Hp0 | intros _; apply strip_trimmed].
  - rewrite (split_comma_single media_id Em) in H.
    destruct H as [H | []]. injection H as <- _.
    split; [exact Em | discriminate].
Qed.

(** X15: whenever [play_media] launches with parameters, the parameters are
    the single entry [contentId], its value holds nothing but unreserved
    characters and percent escapes, and percent-decoding it gives back the
    content id: the whole media id for the side-loaded stream type, the
    trimmed second part of the pair for type app. *)
Theorem deep_link_is_escaped (d : Device) (media_type media_id : string)
  (w : World) (i : string) (params : list (string * string)) :
  In (Launch i (Some params))
    (events (MediaPlayer.async_play_media d media_type media_id) w) ->
  exists v,
    params = [("contentId", v)] /\
    all_chars url_safe v = true /\
    (media_type = FORMAT_CONTENT_TYPE HLS_PROVIDER ->
     i = "dev" /\ unquote v = media_id) /\
    (media_type = MEDIA_TYPE_APP ->
     exists p0 p1 ps,
       split_comma media_id = p0 :: p1 :: ps /\ unquote v = strip p1).
Proof.
  intros H. apply launch_in_calls in H.
  rewrite play_media_calls in H.
  destruct (media_type =? MEDIA_TYPE_APP) eqn:Ea.
  - apply String.eqb_eq in Ea. subst media_type.
    destruct (split_comma media_id) as [| p0 [| p1 ps]] eqn:Es;
      destruct H as [H | []]; try discriminate.
    injection H as <- <-.
    exists (quote (strip p1)).
    split; [reflexivity|]. split; [apply quote_url_safe|].
    split; [discriminate|].
    intros _. exists p0, p1, ps. split; [reflexivity | apply unquote_quote].
  - apply String.eqb_neq in Ea.
    destruct (media_type =? FORMAT_CONTENT_TYPE HLS_PROVIDER) eqn:Eh.
    + destruct H as [H | []]. injection H as <- <-.
      exists (quote media_id).
      split; [reflexivity|]. split; [apply quote_url_safe|].
      split; [intros _; split; [reflexivity | apply unquote_quote]|].
      intros E. contradiction.
    + destruct (media_type =? MEDIA_TYPE_CHANNEL);
        [destruct H as [H | []]; discriminate | contradiction].
Qed.

End DeepLinks.

Section Emission.

Variable P : Event -> bool.

Lemma emits_ret {A : Type} (a : A) : emits P (ret a).
Proof. intros w. exists []. simpl. rewrite app_nil_r. auto. Qed.

Lemma emits_vendor_call (ev : Event) :
  P ev = true -> emits P (vendor_call ev).
Proof.
  intros H w. exists [ev]. unfold vendor_call.
  destruct (vendor w (calls w)); simpl; rewrite H; auto.
Qed.

Lemma emits_request_refresh :
  P RequestRefresh = true -> emits P async_request_refresh.
Proof. intros H w. exists [RequestRefresh]. simpl. rewrite H. auto. Qed.

Lemma emits_log_error msg args :
  P (LogError msg args) = true -> emits P (log_error msg args).
Proof. intros H w. exists [LogError msg args]. simpl. rewrite H. auto. Qed.

Lemma emits_log_info msg args :
  P (LogInfo msg args) = true -> emits P (log_info msg args).
Proof. intros H w. exists [LogInfo msg args]. simpl. rewrite H. auto. Qed.

Lemma emits_bind {A B : Type} (m : M A) (k : A -> M B) :
  emits P m -> (forall a, emits P (k a)) -> emits P (bind m k).
Proof.
  intros Hm Hk w. unfold bind.
  destruct (Hm w) as (es1 & T1 & F1).
  destruct (m w) as [[a | e] w1]; simpl in T1.
  - destruct (Hk a w1) as (es2 & T2 & F2).
    exists (es1 ++ es2). rewrite T2, T1, app_assoc, forallb_app, F1, F2.
    auto.
  - exists es1. simpl. auto.
Qed.

Lemma emits_if {A : Type} (b : bool) (m1 m2 : M A) :
  emits P m1 -> emits P m2 -> emits P (if b then m1 else m2).
Proof. destruct b; auto. Qed.

Lemma emits_for_each {A : Type} (l : list A) (body : A -> M unit) :
  (forall x, emits P (body x)) -> emits P (for_each l body).
Proof.
  intros H. induction l as [| x l IH]; simpl.
  - apply emits_ret.
  - apply emits_bind; auto.
Qed.

End Emission.

(** Discharges [emits] for a body built from the primitives. *)
Ltac emits_body :=
  repeat first
    [ apply emits_bind; [| intros ?]
    | apply emits_if
    | apply emits_for_each; intros ?
    | apply emits_ret
    | apply emits_request_refresh; reflexivity
    | apply emits_log_error; reflexivity
    | apply emits_log_info; reflexivity
    | apply emits_vendor_call; reflexivity ].

Section RefreshComesLast.

Lemma refresh_requests_none (es : list Event) :
  forallb not_refresh es = true -> refresh_requests es = 0%nat.
Proof.
  unfold refresh_requests, not_refresh.
  induction es as [| ev es IH]; simpl; [reflexivity|].
  intros H. apply andb_true_iff in H. destruct H as [Hev Hes].
  destruct (is_refresh ev); [discriminate | auto].
Qed.

Lemma refresh_last_of_emits {A : Type} (m : M A) :
  emits not_refresh m -> refresh_only_on_return m.
Proof.
  intros H w e _. destruct (H w) as (es & T & F).
  exists es. split; [exact T | apply refresh_requests_none, F].
Qed.

Lemma refresh_last_request : refresh_only_on_return async_request_refresh.
Proof. intros w e H. discriminate H. Qed.

Lemma refresh_last_bind {A B : Type} (m : M A) (k : A -> M B) :
  emits not_refresh m ->
  (forall a, refresh_only_on_return (k a)) ->
  refresh_only_on_return (bind m k).
Proof.
  intros Hm Hk w e. unfold bind.
  destruct (Hm w) as (es1 & T1 & F1).
  destruct (m w) as [[a | e1] w1]; simpl in T1 |- *.
  - intros H. destruct (Hk a w1 e H) as (es2 & T2 & R2).
    exists (es1 ++ es2). rewrite T2, T1, app_assoc. split; [reflexivity|].
    rewrite refresh_requests_app, R2, (refresh_requests_none es1 F1).
    reflexivity.
  - intros _. exists es1. split; [exact T1 | apply refresh_requests_none, F1].
Qed.

Lemma refresh_last_if {A : Type} (b : bool) (m1 m2 : M A) :
  refresh_only_on_return m1 -> refresh_only_on_return m2 ->
  refresh_only_on_return (if b then m1 else m2).
Proof. destruct b; auto. Qed.

End RefreshComesLast.

(** Discharges [refresh_only_on_return] for a handler's body. *)
Ltac refresh_last_body :=
  repeat first
    [ apply refresh_last_if
    | apply refresh_last_request
    | apply refresh_last_bind; [emits_body | intros ?]
    | apply refresh_last_of_emits; emits_body ].

Section HandlersWellFormed.
Import Data.

Lemma dispatch_well_formed (c : Command) (d : Device) :
  well_formed_handler (dispatch c d).
Proof.
  destruct c; cbn [dispatch];
    (eexists; split; [reflexivity |]);
    unfold remote, launch, tune, roku_search;
    (split; [orderly_body | split; [emits_body | refresh_last_body]]).
  all: destruct (find _ (apps d));
    first [ solve [orderly_body] | solve [emits_body] ].
Qed.

End HandlersWellFormed.

Section FailedCalls.
Import Data.

Lemma call_failed_of_result {A : Type} (func : M A) (w : World) :
  orderly func ->
  call_failed w (snd (func w)) =
  match fst (func w) with
  | Raise _ => true
  | Ok _ => false
  end.
Proof.
  intros Hf. destruct (Hf w) as (_ & _ & Hc & _ & Hr).
  unfold call_failed.
  destruct (fst (func w)) as [a | e].
  - destruct (existsb _ _) eqn:E; [|reflexivity].
    apply existsb_exists in E. destruct E as (n & Hn & Hv).
    apply in_seq in Hn. rewrite Hr in Hv by lia. discriminate.
  - destruct Hr as [Hlt Hv].
    apply existsb_exists. exists (pred (calls (snd (func w)))).
    split; [apply in_seq; lia | rewrite Hv; reflexivity].
Qed.

(** The decorator makes no vendor call and adds at most its one line. *)
Lemma handler_adds_a_line (func : M unit) (w : World) :
  calls (snd (roku_exception_handler func w)) = calls (snd (func w)) /\
  trace (snd (roku_exception_handler func w)) =
  trace (snd (func w))
  ++ match fst (func w) with
     | Raise (OtherException _) | Ok _ => []
     | Raise e => if available (snd (func w)) then [api_log e] else []
     end.
Proof.
  unfold roku_exception_handler.
  destruct (func w) as [[a | [msg | msg | msg]] w1]; simpl;
    try destruct (available w1); simpl; rewrite ?app_nil_r; auto.
Qed.

Lemma api_error_lines_none (es : list Event) :
  forallb not_api_error es = true -> api_error_lines es = 0%nat.
Proof.
  unfold api_error_lines, not_api_error.
  induction es as [| ev es IH]; simpl; [reflexivity|].
  intros H. apply andb_true_iff in H. destruct H as [Hev Hes].
  destruct (is_api_error ev); [discriminate | auto].
Qed.

Lemma api_error_lines_app (l r : list Event) :
  api_error_lines (l ++ r) = (api_error_lines l + api_error_lines r)%nat.
Proof.
  unfold api_error_lines. rewrite filter_app, length_app. reflexivity.
Qed.

(** X16: a command that hits a failed vendor call requests no refresh:
    every handler requests its refresh only after its calls, and a raised
    error ends the handler before it. *)
Theorem failed_call_skips_refresh (c : Command) (d : Device) (w : World) :
  call_failed w (snd (dispatch c d w)) = true ->
  refresh_requests (events (dispatch c d) w) = 0%nat.
Proof.
  destruct (dispatch_well_formed c d) as (func & -> & Ho & _ & Hr).
  destruct (handler_adds_a_line func w) as [Hc Ht].
  unfold call_failed. rewrite Hc.
  fold (call_failed w (snd (func w))).
  rewrite (call_failed_of_result func w Ho).
  destruct (fst (func w)) as [a | e] eqn:E; [discriminate|]. intros _.
  destruct (Hr w e E) as (es & T & R).
  erewrite events_of_trace by (rewrite Ht, T, <- app_assoc; reflexivity).
  rewrite refresh_requests_app, R.
  destruct e; try destruct (available (snd (func w))); reflexivity.
Qed.

(** X17: with the vendor client raising nothing but its two kinds of error,
    a command logs a vendor error exactly once when one of its calls failed
    and the entity is available, and not at all otherwise: never for a
    command whose calls succeed, never while the entity is unavailable. *)
Theorem vendor_error_logged_once (c : Command) (d : Device) (w : World) :
  vendor_errors_only w ->
  api_error_lines (events (dispatch c d) w) =
  if call_failed w (snd (dispatch c d w)) && available w
  then 1%nat else 0%nat.
Proof.
  intros Hw.
  destruct (dispatch_well_formed c d) as (func & -> & Ho & He & _).
  destruct (handler_adds_a_line func w) as [Hc Ht].
  unfold call_failed. rewrite Hc.
  fold (call_failed w (snd (func w))).
  rewrite (call_failed_of_result func w Ho).
  destruct (He w) as (es & T & F).
  destruct (Ho w) as (_ & Ha & _ & _ & Hr).
  erewrite events_of_trace by (rewrite Ht, T, <- app_assoc; reflexivity).
  rewrite api_error_lines_app, (api_error_lines_none es F), Ha.
  destruct (fst (func w)) as [a | e]; [reflexivity|].
  destruct Hr as [_ Hv]. specialize (Hw _ _ Hv).
  destruct e; simpl in Hw; [| | contradiction];
    destruct (available w); reflexivity.
Qed.

(** X18: an exception of the vendor client that is not one of the vendor
    library's two kinds is not swallowed: the command raises it to the host
    platform, logs no vendor error and requests no refresh. *)
Theorem other_exception_propagates (c : Command) (d : Device) (w : World)
  (n : nat) (msg : string) :
  (calls w <= n)%nat ->
  (n < calls (snd (dispatch c d w)))%nat ->
  vendor w n = Some (OtherException msg) ->
  fst (dispatch c d w) = Raise (OtherException msg) /\
  api_error_lines (events (dispatch c d) w) = 0%nat /\
  refresh_requests (events (dispatch c d) w) = 0%nat.
Proof.
  destruct (dispatch_well_formed c d) as (func & -> & Ho & He & Hr).
  destruct (handler_adds_a_line func w) as [Hc Ht].
  rewrite Hc. intros H1 H2 Hv.
  destruct (Ho w) as (_ & _ & _ & Hl & Hres).
  destruct (fst (func w)) as [a | e] eqn:E.
  { rewrite Hres in Hv by lia. discriminate. }
  destruct Hres as [Hlt Hlast].
  assert (n = pred (calls (snd (func w)))) as ->.
  { destruct (Nat.eq_dec n (pred (calls (snd (func w))))); [assumption|].
    rewrite Hl in Hv by lia. discriminate. }
  rewrite Hlast in Hv. injection Hv as ->.
  destruct (He w) as (es & T & F).
  destruct (Hr w _ E) as (es' & T' & R).
  assert (es' = es) as -> by (eapply app_inv_head; rewrite <- T, <- T'; auto).
  rewrite app_nil_r in Ht.
  erewrite events_of_trace by (rewrite Ht, T; reflexivity).
  unfold roku_exception_handler.
  destruct (func w) as [r w1]. simpl in E. subst r. simpl.
  repeat split; [apply api_error_lines_none, F | exact R].
Qed.

End FailedCalls.

Section SendCommandAnyWorld.
Import Data.

Lemma for_each_nothing {A : Type} (l : list A) (w : World) :
  for_each l (fun _ => for_each (@nil string) (fun k => remote k)) w
  = (Ok tt, w).
Proof. induction l as [| x l IH]; simpl; [reflexivity|]. exact IH. Qed.

(** X19: with a repeat count of zero or less, or with an empty command
    list, [send_command] sends no key and still requests the refresh: the
    refresh request is all it does, in any world. *)
Theorem send_command_nothing_to_send (d : Device) (command : list string)
  (N : Z) (w : World) :
  (N <= 0)%Z \/ command = [] ->
  RokuRemote.async_send_command d command N w
  = (Ok tt, emit RequestRefresh w).
Proof.
  unfold RokuRemote.async_send_command.
  intros [HN | ->].
  - unfold range. replace (Z.to_nat N) with 0%nat by lia. reflexivity.
  - unfold roku_exception_handler, bind.
    rewrite for_each_nothing. reflexivity.
Qed.

(** One pass in any world: the keys sent are an initial part of the list,
    all of it when the pass returns. *)
Lemma for_each_remote_any (keys : list string) (w : World) :
  exists sent rest,
    map Remote keys = sent ++ rest /\
    trace (snd (for_each keys (fun k => remote k) w)) = trace w ++ sent /\
    (forall a, fst (for_each keys (fun k => remote k) w) = Ok a ->
               rest = []).
Proof.
  unfold remote, vendor_call.
  revert w. induction keys as [| k keys IH]; intros w.
  - exists [], []. simpl. rewrite app_nil_r. auto.
  - simpl. unfold bind.
    destruct (vendor w (calls w)) as [e|].
    + exists [Remote k], (map Remote keys). simpl.
      split; [reflexivity|]. split; [reflexivity|].
      intros a H. discriminate H.
    + match goal with
      | |- context [for_each keys _ ?w1] =>
        destruct (IH w1) as (sent & rest & E & T & R)
      end.
      exists (Remote k :: sent), rest. simpl in T |- *.
      rewrite E, T, <- app_assoc. auto.
Qed.

Lemma for_each_pass_any {A : Type} (l : list A) (keys : list string)
  (w : World) :
  let run := for_each l (fun _ => for_each keys (fun k => remote k)) in
  exists sent rest,
    List.concat (repeat (map Remote keys) (List.length l)) = sent ++ rest /\
    trace (snd (run w)) = trace w ++ sent /\
    (forall a, fst (run w) = Ok a -> rest = []).
Proof.
  cbv zeta. revert w. induction l as [| x l IH]; intros w.
  - exists [], []. simpl. rewrite app_nil_r. auto.
  - simpl. unfold bind.
    destruct (for_each_remote_any keys w) as (s1 & r1 & E1 & T1 & R1).
    destruct (for_each keys (fun k => remote k) w) as [[a | e] w1];
      simpl in T1, R1.
    + specialize (R1 a eq_refl). subst r1. rewrite app_nil_r in E1.
      destruct (IH w1) as (s2 & r2 & E2 & T2 & R2).
      exists (s1 ++ s2), r2.
      rewrite E2, E1, T2, T1, !app_assoc. auto.
    + exists s1, (r1 ++ List.concat (repeat (map Remote keys) (List.length l))).
      simpl. rewrite E1, <- app_assoc.
      split; [reflexivity|]. split; [exact T1|].
      intros a H. discriminate H.
Qed.

Lemma vendor_calls_app (l r : list Event) :
  vendor_calls (l ++ r) = vendor_calls l ++ vendor_calls r.
Proof. apply filter_app. Qed.

Lemma vendor_calls_remotes (l r : list Event) (keys : list Event) :
  keys = l ++ r ->
  forallb is_remote keys = true ->
  vendor_calls l = l /\ refresh_requests l = 0%nat.
Proof.
  intros -> H. rewrite forallb_app in H.
  apply andb_true_iff in H. destruct H as [H _].
  induction l as [| ev l IH]; simpl; [auto|].
  simpl in H. apply andb_true_iff in H. destruct H as [Hev Hl].
  destruct (IH Hl) as [IH1 IH2].
  destruct ev; try discriminate.
  split; [|exact IH2].
  unfold vendor_calls in *. simpl. rewrite IH1. reflexivity.
Qed.

Lemma passes_are_remotes (keys : list string) (n : nat) :
  forallb is_remote (List.concat (repeat (map Remote keys) n)) = true.
Proof.
  induction n as [| n IH]; simpl; [reflexivity|].
  rewrite forallb_app, IH, andb_true_r.
  clear IH. induction keys as [| k keys IHk]; simpl; [reflexivity | exact IHk].
Qed.

(** X20: in any world, the keys [send_command] sends are an initial part
    of the full sequence, N passes over the list in order: a failed key ends
    the sending, nothing is skipped or sent twice; and the refresh is
    requested only when the whole sequence was sent. *)
Theorem send_command_sends_a_prefix (d : Device) (command : list string)
  (N : Z) (w : World) :
  let full := List.concat (repeat (map Remote command) (Z.to_nat N)) in
  let done := events (RokuRemote.async_send_command d command N) w in
  exists j,
    vendor_calls done = firstn j full /\
    (refresh_requests done <> 0%nat -> vendor_calls done = full).
Proof.
  cbv zeta.
  destruct (for_each_pass_any (range N) command w)
    as (sent & rest & E & T & R).
  cbv zeta in E, T, R. rewrite range_length in E.
  destruct (vendor_calls_remotes sent rest _ E (passes_are_remotes _ _))
    as [Hv Hr].
  exists (List.length sent).
  rewrite E, firstn_app, Nat.sub_diag, firstn_all. simpl.
  rewrite app_nil_r.
  unfold events, RokuRemote.async_send_command, roku_exception_handler,
    bind.
  destruct (for_each (range N) _ w) as [[a | e] w1]; simpl in T, R.
  - rewrite (R a eq_refl), app_nil_r. simpl. rewrite T.
    rewrite <- app_assoc, skipn_length_app, vendor_calls_app, Hv. simpl.
    rewrite app_nil_r. auto.
  - assert (Hs : skipn (List.length (trace w)) (trace w1) = sent)
      by (rewrite T; apply skipn_length_app).
    destruct e as [msg | msg | msg]; try destruct (available w1); simpl;
      rewrite ?T, <- ?app_assoc, ?skipn_length_app, ?vendor_calls_app,
        ?refresh_requests_app, ?Hv, ?Hr; simpl; rewrite ?app_nil_r;
      (split; [reflexivity | intros H; contradiction H; reflexivity]).
Qed.

End SendCommandAnyWorld.

(** * Properties of setting up and unloading *)

Section SetupAndUnload.
Import Integration.

Variable first_refresh : Coordinator -> option SetupError.

Lemma setup_registers_coordinator_aux (entry : ConfigEntry) (hass : Hass) :
  let hass' := snd (async_setup_entry first_refresh entry hass) in
  domain_data hass' <> None /\
  lookup hass' (entry_id entry) =
    Some match lookup hass (entry_id entry) with
         | Some c => c
         | None => mkCoordinator (host entry)
         end /\
  (forall k, k <> entry_id entry -> lookup hass' k = lookup hass k).
Proof.
  unfold async_setup_entry, lookup.
  destruct (domain_data hass) as [m|]; simpl.
  - destruct (m (entry_id entry)) as [c|] eqn:E.
    + destruct (first_refresh c); simpl; rewrite E;
        (split; [discriminate | split; auto]).
    + destruct (first_refresh _); simpl; unfold store;
        rewrite String.eqb_refl;
        (split; [discriminate | split; [reflexivity|]]);
        intros k Hk; apply String.eqb_neq in Hk; rewrite Hk; reflexivity.
  - destruct (first_refresh _); simpl; unfold store;
      rewrite String.eqb_refl;
      (split; [discriminate | split; [reflexivity|]]);
      intros k Hk; apply String.eqb_neq in Hk; rewrite Hk; reflexivity.
Qed.

(** X21: [async_setup_entry] registers the entry's coordinator before the
    first refresh, so it is stored whether the refresh returns or raises:
    the coordinator already stored under the entry's id if there is one,
    kept as it is, and otherwise a new one for the entry's host; the other
    entries are left as they were. *)
Theorem setup_registers_coordinator (entry : ConfigEntry) (hass : Hass) :
  let hass' := snd (async_setup_entry first_refresh entry hass) in
  domain_data hass' <> None /\
  lookup hass' (entry_id entry) =
    Some match lookup hass (entry_id entry) with
         | Some c => c
         | None => mkCoordinator (host entry)
         end /\
  (forall k, k <> entry_id entry -> lookup hass' k = lookup hass k).
Proof. exact (setup_registers_coordinator_aux entry hass). Qed.

End SetupAndUnload.

Section UnloadAfterSetup.
Import Integration.

(** X22: a set-up that fails in its first refresh leaves its coordinator
    stored, and the next set-up of the entry uses that coordinator, not a
    new one, even when the entry's host has changed in between. *)
Theorem retried_setup_reuses_coordinator
  (failing retry : Coordinator -> option SetupError)
  (entry entry' : ConfigEntry) (hass : Hass) (e : SetupError) :
  lookup hass (entry_id entry) = None ->
  failing (mkCoordinator (host entry)) = Some e ->
  entry_id entry' = entry_id entry ->
  let hass1 := snd (async_setup_entry failing entry hass) in
  let hass2 := snd (async_setup_entry retry entry' hass1) in
  fst (async_setup_entry failing entry hass) = Raised e /\
  lookup hass1 (entry_id entry) = Some (mkCoordinator (host entry)) /\
  lookup hass2 (entry_id entry) = Some (mkCoordinator (host entry)).
Proof.
  intros Hn Hf Hid hass1 hass2.
  pose proof (setup_registers_coordinator_aux failing entry hass) as H1.
  pose proof (setup_registers_coordinator_aux retry entry' hass1) as H2.
  cbv zeta in H1, H2. fold hass1 in H1. fold hass2 in H2.
  destruct H1 as (_ & L1 & _). destruct H2 as (_ & L2 & _).
  rewrite Hn in L1. rewrite Hid, L1 in L2.
  split; [|split; assumption].
  unfold async_setup_entry. unfold lookup in Hn.
  destruct (domain_data hass) as [m|]; simpl;
    [rewrite Hn|]; simpl; rewrite Hf; reflexivity.
Qed.

(** X23: unloading undoes a set-up: after a set-up of an entry that was not
    stored and an unload whose platforms unload, the entry is gone and every
    other entry is as it was before; an unload whose platforms do not unload
    returns [False] and changes nothing. *)
Theorem unload_undoes_setup
  (first_refresh : Coordinator -> option SetupError)
  (entry : ConfigEntry) (hass : Hass) :
  (lookup hass (entry_id entry) = None ->
   let hass1 := snd (async_setup_entry first_refresh entry hass) in
   fst (async_unload_entry true entry hass1) = Returned true /\
   forall k, lookup (snd (async_unload_entry true entry hass1)) k
             = lookup hass k) /\
  async_unload_entry false entry hass = (Returned false, hass).
Proof.
  split; [|reflexivity].
  intros Hn hass1.
  pose proof (setup_registers_coordinator_aux first_refresh entry hass) as H1.
  cbv zeta in H1. fold hass1 in H1. destruct H1 as (Hd & L1 & Lo).
  unfold async_unload_entry, lookup in *.
  destruct (domain_data hass1) as [m1|]; [|contradiction Hd; reflexivity].
  rewrite L1. simpl. split; [reflexivity|].
  intros k. unfold pop.
  destruct (k =? entry_id entry) eqn:E.
  - apply String.eqb_eq in E. subst k. symmetry. exact Hn.
  - apply String.eqb_neq in E. apply Lo. exact E.
Qed.


End UnloadAfterSetup.

(** * The further theorems at sample inputs *)

Section FurtherWitnesses.
Import Data.

Lemma broken_first_call :
  vendor Sample.broken 0 = Some (OtherException "cancelled").
Proof. reflexivity. Defined.

(** The film is playing: "playing" is one of the state words, and media is
    present. *)
Lemma state_word_sample :
  In "playing" ["standby"; "idle"; "home"; "paused"; "playing"; "on"] /\
  media Sample.watching <> None.
Proof.
  destruct (state_is_a_known_word Sample.watching "playing" eq_refl)
    as (Hin & Hm & _).
  split; [exact Hin | exact (proj1 (Hm (or_intror eq_refl)))].
Defined.

Lemma channel_fields_sample :
  MediaPlayer.media_channel Sample.tuned = Some "WXYZ (14.1)" /\
  MediaPlayer.media_title Sample.tuned = Some "Evening News".
Proof.
  destruct (channel_fields_go_together Sample.tuned) as (H & _).
  destruct (H eq_refl) as (ch & Hc & Hm & Ht).
  injection Hc as <-. split; [exact Hm | exact Ht].
Defined.

Lemma image_sample :
  MediaPlayer.media_image_url (fun i => ("/query/icon/" ++ i)%string)
    Sample.at_home = None /\
  MediaPlayer.media_image_url (fun i => ("/query/icon/" ++ i)%string)
    Sample.watching = Some "/query/icon/12".
Proof.
  destruct (image_iff_content_type Sample.at_home
              (fun i => ("/query/icon/" ++ i)%string)) as ((_ & Hn) & _).
  destruct (image_iff_content_type Sample.watching
              (fun i => ("/query/icon/" ++ i)%string)) as (_ & Hs).
  split; [exact (Hn eq_refl)|].
  destruct (Hs _ eq_refl) as (a & Ha & Hu).
  injection Ha as <-. reflexivity.
Defined.

Lemma home_sample :
  MediaPlayer.media_content_type Sample.at_home = None /\
  MediaPlayer.source Sample.at_home = Some "Roku".
Proof.
  destruct (home_has_no_content Sample.at_home (fun i => i) eq_refl)
    as (Hc & _ & Hs).
  split; [exact Hc | exact Hs].
Defined.

Lemma current_source_sample :
  exists s, MediaPlayer.source Sample.watching = Some s /\
            In s (MediaPlayer.source_list Sample.watching).
Proof.
  apply (current_source_is_offered Sample.watching Sample.netflix eq_refl).
  left. reflexivity.
Defined.

Lemma standby_sample :
  MediaPlayer.async_media_play Sample.asleep Sample.quiet
  = (Ok tt, Sample.quiet).
Proof.
  destruct (standby_silences_playback Sample.asleep Sample.quiet eq_refl)
    as (_ & H & _).
  exact H.
Defined.

Lemma play_and_pause_sample :
  MediaPlayer.async_media_play Sample.watching Sample.quiet
  = (Ok tt, Sample.quiet) /\
  vendor_calls (events (MediaPlayer.async_media_pause Sample.watching)
                  Sample.quiet) = [Remote "play"].
Proof.
  destruct (play_and_pause_follow_state Sample.watching Sample.quiet)
    as (H & _).
  exact (H eq_refl).
Defined.

Lemma offered_source_sample :
  exists ev rest,
    vendor_calls
      (events (MediaPlayer.async_select_source Sample.watching "Hulu")
         Sample.unreachable) = ev :: rest /\
    (("Hulu" = "Home" /\ ev = Remote "home") \/
     (exists a, In a (apps Sample.watching) /\
                (name a = "Hulu" \/ Data.app_id a = "Hulu") /\
                ev = Launch (Data.app_id a) None)).
Proof.
  apply (offered_source_is_acted_on Sample.watching "Hulu"
           Sample.unreachable).
  simpl. auto.
Defined.

Lemma unknown_source_sample :
  MediaPlayer.async_select_source Sample.watching "Plex" Sample.quiet
  = (Ok tt, emit RequestRefresh Sample.quiet).
Proof.
  destruct (select_source_launches_only_matches Sample.watching "Plex"
              Sample.quiet) as (_ & H).
  apply H; [discriminate|].
  intros a [<- | [<- | []]]; split; discriminate.
Defined.

(** The em space after the app id is stripped with the rest. *)
Lemma clean_app_id_sample :
  mem_char comma "12" = false /\ trimmed "12".
Proof.
  destruct (launched_app_id_is_clean Sample.watching
              ("12" ++ Sample.em_space ++ ", ABC") Sample.quiet
              "12" (Some [("contentId", "ABC")])) as (Hc & Ht).
  - vm_compute. auto.
  - split; [exact Hc | exact (Ht eq_refl)].
Defined.

(** A stream's content id is escaped whole; a pair's second part is
    stripped, here of a no-break space, and then escaped. *)
Lemma deep_link_sample :
  (exists v,
      [("contentId", "a%20b")] = [("contentId", v)] /\
      all_chars url_safe v = true /\
      unquote v = "a b") /\
  (exists v p0 p1 ps,
      [("contentId", "ABC")] = [("contentId", v)] /\
      split_comma ("12," ++ Sample.nbsp ++ "ABC") = p0 :: p1 :: ps /\
      unquote v = strip p1).
Proof.
  split.
  - destruct (deep_link_is_escaped Sample.watching
                (FORMAT_CONTENT_TYPE HLS_PROVIDER) "a b" Sample.quiet
                "dev" [("contentId", "a%20b")])
      as (v & Hp & Hs & Hd & _).
    + vm_compute. auto.
    + exists v. split; [exact Hp|]. split; [exact Hs|].
      exact (proj2 (Hd eq_refl)).
  - destruct (deep_link_is_escaped Sample.watching MEDIA_TYPE_APP
                ("12," ++ Sample.nbsp ++ "ABC") Sample.quiet
                "12" [("contentId", "ABC")])
      as (v & Hp & _ & _ & Ha).
    + vm_compute. auto.
    + destruct (Ha eq_refl) as (p0 & p1 & ps & Hsplit & Hu).
      exists v, p0, p1, ps. split; [exact Hp|]. split; assumption.
Defined.

Lemma failed_call_sample :
  refresh_requests (events (dispatch turn_on Sample.watching)
                      Sample.unreachable) = 0%nat.
Proof.
  exact (failed_call_skips_refresh turn_on Sample.watching
           Sample.unreachable eq_refl).
Defined.

Lemma logged_once_sample :
  api_error_lines (events (dispatch turn_on Sample.watching)
                     Sample.unreachable) = 1%nat /\
  api_error_lines (events (dispatch turn_on Sample.watching)
                     Sample.quiet) = 0%nat.
Proof.
  split.
  - exact (vendor_error_logged_once turn_on Sample.watching
             Sample.unreachable unreachable_vendor_errors_only).
  - apply (vendor_error_logged_once turn_on Sample.watching Sample.quiet).
    intros n e H. discriminate H.
Defined.

Lemma other_exception_sample :
  fst (dispatch volume_up Sample.watching Sample.broken)
  = Raise (OtherException "cancelled").
Proof.
  destruct (other_exception_propagates volume_up Sample.watching
              Sample.broken 0 "cancelled") as (H & _).
  - vm_compute. apply le_n.
  - vm_compute. apply le_n.
  - exact broken_first_call.
  - exact H.
Defined.

Lemma nothing_to_send_sample :
  RokuRemote.async_send_command Sample.watching ["up"] 0 Sample.unreachable
  = (Ok tt, emit RequestRefresh Sample.unreachable).
Proof.
  apply send_command_nothing_to_send. left. apply Z.le_refl.
Defined.

Lemma setup_sample :
  Integration.lookup
    (snd (Integration.async_setup_entry Sample.refresh_fails
            Sample.living_room Sample.fresh_hass)) "entry-1"
  = Some (Integration.mkCoordinator "192.168.1.20").
Proof.
  destruct (setup_registers_coordinator Sample.refresh_fails
              Sample.living_room Sample.fresh_hass) as (_ & H & _).
  exact H.
Defined.

Lemma retried_setup_sample :
  Integration.lookup
    (snd (Integration.async_setup_entry Sample.refresh_succeeds
            (Integration.mkConfigEntry "entry-1" "192.168.1.99")
            (snd (Integration.async_setup_entry Sample.refresh_fails
                    Sample.living_room Sample.fresh_hass))))
    "entry-1"
  = Some (Integration.mkCoordinator "192.168.1.20").
Proof.
  destruct (retried_setup_reuses_coordinator Sample.refresh_fails
              Sample.refresh_succeeds Sample.living_room
              (Integration.mkConfigEntry "entry-1" "192.168.1.99")
              Sample.fresh_hass Integration.ConfigEntryNotReady
              eq_refl eq_refl eq_refl) as (_ & _ & H).
  exact H.
Defined.

Lemma unload_sample :
  fst (Integration.async_unload_entry true Sample.living_room
         (snd (Integration.async_setup_entry Sample.refresh_succeeds
                 Sample.living_room Sample.fresh_hass)))
  = Integration.Returned true.
Proof.
  destruct (unload_undoes_setup Sample.refresh_succeeds Sample.living_room
              Sample.fresh_hass) as (H & _).
  exact (proj1 (H eq_refl)).
Defined.


End FurtherWitnesses.
